(** * propulsion_tcp_client.py: a terminal bridge to two TCP endpoints

    The program is asyncio glue: two coroutines ("pumps") and a supervisor
    that starts them and tears them down.  The embedding follows the source
    line by line:

    - every [await] of the source is a suspension point.  A coroutine is a
      resumable state machine whose states are its suspension points; it is
      resumed with the [outcome] of the awaited call (a value, or an
      exception thrown at the await) and runs up to its next await;
    - exceptions are Python's: a class with its bases and a message; the
      [except] clauses are [isinstance] tests, [finally] clauses run on
      every exit of their [try];
    - what the library calls answer (the line [readline] returns, whether
      [drain] raises, when a task is scheduled) is not decided by the
      source: it is the environment, given as a script of choices;
    - calls that do not suspend ([write], [close], [print], [cancel],
      [create_task]) are taken to complete; errors and cancellation reach
      the coroutines at their awaits;
    - [Task.cancel()] on a task that is not done makes its next resumption
      receive [CancelledError], whatever the awaited call would have
      answered; on a finished task it does nothing;
    - a task is placed at the first await of its coroutine when it is
      created (the event loop runs both first steps before the supervisor
      is resumed from [wait]);
    - a keyboard interrupt shows as [KeyboardInterrupt] at the await the
      supervisor is suspended on, which is how [asyncio.run] hands it to
      [main]; once the supervisor has finished, nothing of the program's
      own code runs any more. *)

From Stdlib Require Import List Bool Arith NArith String Lia.
From Stdlib.Strings Require Import Byte.
From Stdlib Require Import DecimalString.
Import ListNotations.

Set Implicit Arguments.

(** ** Python exceptions *)

Inductive exn_class : Set :=
| BaseException
| Exception
| KeyboardInterrupt
| SystemExit
| CancelledError          (* asyncio.CancelledError, a BaseException since 3.8 *)
| OSError
| ValueError
| ConnectionError
| ConnectionResetError
| ConnectionRefusedError
| BrokenPipeError.

Scheme Equality for exn_class.

(** The direct base class, [None] at the root. *)
Definition base (c : exn_class) : option exn_class :=
  match c with
  | BaseException => None
  | Exception | KeyboardInterrupt | SystemExit | CancelledError =>
      Some BaseException
  | OSError | ValueError => Some Exception
  | ConnectionError => Some OSError
  | ConnectionResetError | ConnectionRefusedError | BrokenPipeError =>
      Some ConnectionError
  end.

(** The hierarchy above is five classes deep. *)
Fixpoint bases_upto (depth : nat) (c : exn_class) : list exn_class :=
  c :: match depth with
       | O => []
       | S d => match base c with
                | None => []
                | Some b => bases_upto d b
                end
       end.

Definition mro (c : exn_class) : list exn_class := bases_upto 5 c.

Definition issubclass (c d : exn_class) : bool :=
  existsb (exn_class_beq d) (mro c).

Record exn : Set := mk_exn { exn_cls : exn_class; exn_msg : string }.

Definition isinstance (e : exn) (c : exn_class) : bool :=
  issubclass (exn_cls e) c.

(** What an [await] delivers to the coroutine that is resumed. *)
Inductive outcome (A : Type) : Type :=
| Ret (a : A)
| Raise (e : exn).
Arguments Ret {A} a.
Arguments Raise {A} e.

(** How a coroutine ends. *)
Inductive result : Set :=
| Returned
| Raised (e : exn).

Definition bytes := list byte.
Definition text := list N.          (* a str: its code points *)

Definition is_empty {A : Type} (l : list A) : bool :=
  match l with [] => true | _ :: _ => false end.

(** [print(s, end=e)] writes [s] followed by [e]. *)
Definition py_print {A : Type} (s end_ : list A) : list A := s ++ end_.

(** ** bytes.decode('utf-8', errors='replace')

    The codec is Python's, not the program's.  It is written here as the
    byte-at-a-time automaton with the behaviour of CPython's decoder: a
    lead byte fixes how many continuation bytes follow and the range of the
    first one; an ill-formed or truncated sequence yields one U+FFFD for
    its longest well-formed prefix and decoding resumes at the offending
    byte. *)
Module Utf8.

Local Open Scope N_scope.

Definition replacement : N := 0xFFFD.

(** A lead byte: [needed] continuation bytes, the bits it contributes, and
    the bounds on the first continuation byte. *)
Record lead : Set := mk_lead { needed : nat; bits : N; lo : N; hi : N }.

Inductive start_kind : Set :=
| Ascii (c : N)
| Lead (l : lead)
| Invalid.

Definition classify (b : N) : start_kind :=
  if b <? 0x80 then Ascii b
  else if b <? 0xC2 then Invalid
  else if b <? 0xE0 then Lead (mk_lead 1 (N.land b 0x1F) 0x80 0xBF)
  else if b =? 0xE0 then Lead (mk_lead 2 (N.land b 0x0F) 0xA0 0xBF)
  else if b =? 0xED then Lead (mk_lead 2 (N.land b 0x0F) 0x80 0x9F)
  else if b <? 0xF0 then Lead (mk_lead 2 (N.land b 0x0F) 0x80 0xBF)
  else if b =? 0xF0 then Lead (mk_lead 3 (N.land b 0x07) 0x90 0xBF)
  else if b <? 0xF4 then Lead (mk_lead 3 (N.land b 0x07) 0x80 0xBF)
  else if b =? 0xF4 then Lead (mk_lead 3 (N.land b 0x07) 0x80 0x8F)
  else Invalid.

(** [go pending bs]: [pending] is the sequence under way, if any. *)
Fixpoint go (pending : option lead) (bs : bytes) : text :=
  match bs with
  | [] => match pending with
          | None => []
          | Some _ => [replacement]        (* unexpected end of data *)
          end
  | b :: rest =>
      let n := Byte.to_N b in
      let fresh (prefix : text) : text :=
        match classify n with
        | Ascii c => prefix ++ c :: go None rest
        | Lead l => prefix ++ go (Some l) rest
        | Invalid => prefix ++ replacement :: go None rest
        end in
      match pending with
      | None => fresh []
      | Some l =>
          if (lo l <=? n) && (n <=? hi l) then
            let cp := N.lor (N.shiftl (bits l) 6) (N.land n 0x3F) in
            match needed l with
            | 1%nat => cp :: go None rest
            | k => go (Some (mk_lead (pred k) cp 0x80 0xBF)) rest
            end
          else fresh [replacement]
      end
  end.

Definition decode (data : bytes) : text := go None data.

End Utf8.

(** ** The command pump: [read_stdin_and_send] *)
Module CommandPump.

(** What the coroutine does, in order. *)
Inductive event : Set :=
| CallConnectReadPipe          (* line 12: await loop.connect_read_pipe *)
| PipeConnected
| CallReadline                 (* line 16: await reader.readline() *)
| GotLine (line : bytes)
| CallWrite (data : bytes)     (* line 19: writer.write(line) *)
| CallDrain                    (* line 20: await writer.drain() *)
| Drained
| CallClose                    (* line 24: writer.close() *)
| CallWaitClosed               (* line 25: await writer.wait_closed() *)
| Closed
| Thrown (e : exn).            (* an exception delivered at the current await *)

(** The suspension points.  [AtWaitClosed pending] is the await of the
    [finally] clause; [pending] is the exception the [try] statement has
    not handled, re-raised when the clause completes. *)
Inductive pc : Set :=
| AtConnectReadPipe
| AtReadline
| AtDrain
| AtWaitClosed (pending : option exn)
| Done (r : result).

(** Line 21: [except (ConnectionResetError, asyncio.CancelledError)]. *)
Definition handled (e : exn) : bool :=
  isinstance e ConnectionResetError || isinstance e CancelledError.

(** Lines 23-25, entered on every exit of the [try] statement. *)
Definition finally_ (pending : option exn) : pc * list event :=
  (AtWaitClosed pending, [CallClose; CallWaitClosed]).

(** An exception [e] thrown inside the [try] body (lines 15-20). *)
Definition in_try_raise (e : exn) : pc * list event :=
  let (p, evs) := finally_ (if handled e then None else Some e) in
  (p, Thrown e :: evs).

(** Lines 9-12: up to the first await. *)
Definition start : pc * list event :=
  (AtConnectReadPipe, [CallConnectReadPipe]).

(** Resume the coroutine at [p] with the outcome of its await.  The payload
    of [Ret] is the line at [AtReadline] and is ignored elsewhere. *)
Definition resume (p : pc) (o : outcome bytes) : pc * list event :=
  match p with
  | AtConnectReadPipe =>
      match o with
      | Ret _ => (AtReadline, [PipeConnected; CallReadline])
      | Raise e => (Done (Raised e), [Thrown e])
      end
  | AtReadline =>
      match o with
      | Ret line =>
          if is_empty line                                (* line 17 *)
          then let (p', evs) := finally_ None in          (* line 18: break *)
               (p', GotLine line :: evs)
          else (AtDrain, [GotLine line; CallWrite line; CallDrain])
      | Raise e => in_try_raise e
      end
  | AtDrain =>
      match o with
      | Ret _ => (AtReadline, [Drained; CallReadline])
      | Raise e => in_try_raise e
      end
  | AtWaitClosed pending =>
      match o with
      | Ret _ => (Done match pending with
                       | None => Returned
                       | Some e => Raised e
                       end, [Closed])
      | Raise e => (Done (Raised e), [Thrown e])
      end
  | Done r => (Done r, [])
  end.

Definition advance (st : pc * list event) (o : outcome bytes)
  : pc * list event :=
  let (p', evs) := resume (fst st) o in (p', snd st ++ evs).

(** The coroutine driven by a script of await outcomes. *)
Definition run_from (st : pc * list event) (script : list (outcome bytes))
  : pc * list event :=
  fold_left advance script st.

Definition run (script : list (outcome bytes)) : pc * list event :=
  run_from start script.

(** The chunks handed to [writer.write], in order. *)
Definition written (tr : list event) : list bytes :=
  flat_map (fun e => match e with CallWrite d => [d] | _ => [] end) tr.

(** The non-empty lines [readline] returned, in order. *)
Definition lines_read (tr : list event) : list bytes :=
  flat_map (fun e => match e with
                     | GotLine l => if is_empty l then [] else [l]
                     | _ => []
                     end) tr.

(** The byte stream on the command connection. *)
Definition wire (tr : list event) : bytes := List.concat (written tr).

(** Every write of the trace is followed by a completed drain. *)
Definition all_drained (tr : list event) : Prop :=
  forall pre d post, tr = pre ++ CallWrite d :: post -> In Drained post.

(** A call of [readline] after a write comes after a completed drain. *)
Definition drain_between (tr : list event) : Prop :=
  forall pre d mid post,
    tr = pre ++ CallWrite d :: mid ++ CallReadline :: post ->
    In Drained mid.

End CommandPump.

(** ** The telemetry pump: [read_tcp_and_print] *)
Module TelemetryPump.

Inductive event : Set :=
| CallRead (n : N)             (* line 32: await reader.read(1024) *)
| GotData (data : bytes)
| Print (out : text)           (* line 36: what print writes to stdout *)
| Thrown (e : exn).

Inductive pc : Set :=
| AtRead
| Done (r : result).

(** Line 37: [except (ConnectionResetError, asyncio.CancelledError)]. *)
Definition handled (e : exn) : bool :=
  isinstance e ConnectionResetError || isinstance e CancelledError.

Definition start : pc * list event := (AtRead, [CallRead 1024]).

Definition resume (p : pc) (o : outcome bytes) : pc * list event :=
  match p with
  | AtRead =>
      match o with
      | Ret data =>
          if is_empty data                                  (* line 33 *)
          then (Done Returned, [GotData data])              (* line 34 *)
          else let text_ := Utf8.decode data in             (* line 35 *)
               (AtRead, [GotData data;
                         Print (py_print text_ []);         (* end='' *)
                         CallRead 1024])
      | Raise e =>
          (Done (if handled e then Returned else Raised e), [Thrown e])
      end
  | Done r => (Done r, [])
  end.

Definition advance (st : pc * list event) (o : outcome bytes)
  : pc * list event :=
  let (p', evs) := resume (fst st) o in (p', snd st ++ evs).

Definition run_from (st : pc * list event) (script : list (outcome bytes))
  : pc * list event :=
  fold_left advance script st.

Definition run (script : list (outcome bytes)) : pc * list event :=
  run_from start script.

(** Standard output: everything printed, in order. *)
Definition stdout (tr : list event) : text :=
  List.concat
    (flat_map (fun e => match e with Print t => [t] | _ => [] end) tr).

End TelemetryPump.

(** ** The supervisor: [tcp_translation_client] and [main] *)
Module Supervisor.

Inductive task_id : Set := StdinTask | LogTask.

Inductive event : Set :=
| CallOpenConnection (port : N)     (* lines 45, 49 *)
| Connected (port : N)
| Stderr (s : string)               (* what print(..., file=sys.stderr) writes *)
| CreateTask (t : task_id)          (* lines 53, 54 *)
| CallWait                          (* line 56 *)
| WaitReturned
| CallCancel (t : task_id)          (* lines 59, 60 *)
| CallGather                        (* line 61 *)
| GatherReturned
| Thrown (e : exn)                  (* an exception at the supervisor's await *)
| Cmd (e : CommandPump.event)
| Tel (e : TelemetryPump.event)
| TaskDone (t : task_id) (r : result).

Inductive pc : Set :=
| AtOpenCommand
| AtOpenLog
| AtWait
| AtGather
| Done (r : result).

(** An asyncio task: where its coroutine is suspended, and whether
    [cancel()] has asked for [CancelledError] at its next resumption. *)
Record task (P : Set) : Set := mk_task { at_ : P; must_cancel : bool }.

Record world : Set := mk_world {
  sup : pc;
  stdin_task : option (task CommandPump.pc);
  log_task : option (task TelemetryPump.pc);
  trace : list event
}.

Definition nl : string := String (Ascii.ascii_of_nat 10) EmptyString.

(** [print(msg, file=sys.stderr)], with the default [end]. *)
Definition print_err (msg : string) : event := Stderr (msg ++ nl)%string.

(** The f-string rendering of a port number. *)
Definition decimal (n : N) : string := NilEmpty.string_of_uint (N.to_uint n).

Definition cmd_done (t : option (task CommandPump.pc)) : bool :=
  match t with
  | Some (mk_task (CommandPump.Done _) _) => true
  | _ => false
  end.

Definition tel_done (t : option (task TelemetryPump.pc)) : bool :=
  match t with
  | Some (mk_task (TelemetryPump.Done _) _) => true
  | _ => false
  end.

(** [Task.cancel()]: nothing on a finished task, otherwise a request. *)
Definition cancel_cmd (t : option (task CommandPump.pc)) :=
  match t with
  | Some (mk_task (CommandPump.Done r) c) => Some (mk_task (CommandPump.Done r) c)
  | Some (mk_task p _) => Some (mk_task p true)
  | None => None
  end.

Definition cancel_tel (t : option (task TelemetryPump.pc)) :=
  match t with
  | Some (mk_task (TelemetryPump.Done r) c) => Some (mk_task (TelemetryPump.Done r) c)
  | Some (mk_task p _) => Some (mk_task p true)
  | None => None
  end.

Definition cancelled : exn := mk_exn CancelledError "".

(** The event loop marks a task done when its coroutine has finished. *)
Definition cmd_finished (p : CommandPump.pc) : list event :=
  match p with
  | CommandPump.Done r => [TaskDone StdinTask r]
  | _ => []
  end.

Definition tel_finished (p : TelemetryPump.pc) : list event :=
  match p with
  | TelemetryPump.Done r => [TaskDone LogTask r]
  | _ => []
  end.

(** What a task's coroutine receives when it is resumed. *)
Definition deliver {A : Type} (must_cancel : bool) (o : outcome A)
  : outcome A :=
  if must_cancel then Raise cancelled else o.

(** Lines 63-66: an exception [e] leaves the [try] body. *)
Definition except_finally (e : exn) : pc * list event :=
  if isinstance e Exception
  then (Done Returned,
        [Thrown e;
         print_err ("Error: " ++ exn_msg e);
         print_err (nl ++ "Disconnected")])
  else (Done (Raised e),
        [Thrown e; print_err (nl ++ "Disconnected")]).

(** The environment: which coroutine the event loop resumes next, and with
    what.  A choice that is not enabled leaves the world as it is. *)
Inductive choice : Type :=
| Main (o : outcome unit)
| Stdin (o : outcome bytes)
| Telemetry (o : outcome bytes).

Section Client.

Variables command_port log_port : N.

Definition init : world :=
  mk_world AtOpenCommand None None [CallOpenConnection command_port].

Definition fail (w : world) (e : exn) : world :=
  let (p, evs) := except_finally e in
  mk_world p (stdin_task w) (log_task w) (trace w ++ evs).

Definition step_main (w : world) (o : outcome unit) : world :=
  match sup w, o with
  | Done _, _ => w
  | _, Raise e => fail w e
  | AtOpenCommand, Ret _ =>
      mk_world AtOpenLog None None
        (trace w ++
           [Connected command_port;
            print_err (nl ++ "Ready to command over port "
                          ++ decimal command_port);
            CallOpenConnection log_port])
  | AtOpenLog, Ret _ =>
      let (cp, cevs) := CommandPump.start in
      let (tp, tevs) := TelemetryPump.start in
      mk_world AtWait (Some (mk_task cp false)) (Some (mk_task tp false))
        (trace w ++
           [Connected log_port;
            print_err ("Ready for telemetry over port "
                         ++ decimal log_port ++ nl);
            CreateTask StdinTask; CreateTask LogTask; CallWait]
           ++ map Cmd cevs ++ map Tel tevs)
  | AtWait, Ret _ =>
      (* return_when=FIRST_COMPLETED *)
      if cmd_done (stdin_task w) || tel_done (log_task w)
      then mk_world AtGather
             (cancel_cmd (stdin_task w)) (cancel_tel (log_task w))
             (trace w ++ [WaitReturned; CallCancel StdinTask;
                          CallCancel LogTask; CallGather])
      else w
  | AtGather, Ret _ =>
      (* gather resolves when both tasks are done; return_exceptions=True *)
      if cmd_done (stdin_task w) && tel_done (log_task w)
      then mk_world (Done Returned) (stdin_task w) (log_task w)
             (trace w ++ [GatherReturned; print_err (nl ++ "Disconnected")])
      else w
  end.

Definition step_stdin (w : world) (o : outcome bytes) : world :=
  match sup w, stdin_task w with
  | Done _, _ | _, None => w
  | _, Some (mk_task (CommandPump.Done _) _) => w
  | _, Some (mk_task p c) =>
      let (p', evs) := CommandPump.resume p (deliver c o) in
      mk_world (sup w) (Some (mk_task p' false)) (log_task w)
        (trace w ++ map Cmd evs ++ cmd_finished p')
  end.

Definition step_log (w : world) (o : outcome bytes) : world :=
  match sup w, log_task w with
  | Done _, _ | _, None => w
  | _, Some (mk_task (TelemetryPump.Done _) _) => w
  | _, Some (mk_task p c) =>
      let (p', evs) := TelemetryPump.resume p (deliver c o) in
      mk_world (sup w) (stdin_task w) (Some (mk_task p' false))
        (trace w ++ map Tel evs ++ tel_finished p')
  end.

Definition step (w : world) (c : choice) : world :=
  match c with
  | Main o => step_main w o
  | Stdin o => step_stdin w o
  | Telemetry o => step_log w o
  end.

(** [tcp_translation_client(command_port, log_port)] under a schedule. *)
Definition run (schedule : list choice) : world := fold_left step schedule init.

End Client.

(** Standard error: the writes, in order. *)
Definition stderr (tr : list event) : list string :=
  flat_map (fun e => match e with Stderr s => [s] | _ => [] end) tr.

(** Lines 69-76.  [asyncio.run] gives back what the coroutine returns or
    raises; [None] while the coroutine has not finished. *)
Definition main (schedule : list choice) : option result * list event :=
  let command_port := 8124%N in
  let log_port := 8125%N in
  let w := run command_port log_port schedule in
  match sup w with
  | Done Returned => (Some Returned, trace w)
  | Done (Raised e) =>
      if isinstance e KeyboardInterrupt
      then (Some Returned, trace w ++ [print_err (nl ++ "Exiting...")])
      else (Some (Raised e), trace w)
  | _ => (None, trace w)
  end.

End Supervisor.

(** * The vocabulary of the properties *)

Unset Implicit Arguments.

(** ** Order of events in a trace *)

(** Every [Q] event of the trace has a [P] event before it. *)
Definition happens_before {E : Type} (P Q : E -> bool) (tr : list E) : Prop :=
  forall pre x post, tr = pre ++ x :: post -> Q x = true ->
                     existsb P pre = true.

(** A decision procedure for the events added to a trace: [seen] tells
    whether a [P] event has occurred already. *)
Fixpoint ordered_from {E : Type} (P Q : E -> bool) (seen : bool)
  (evs : list E) : bool :=
  match evs with
  | [] => true
  | x :: rest => (negb (Q x) || seen) && ordered_from P Q (seen || P x) rest
  end.

(** [x], wherever it occurs, is directly followed by [next]. *)
Definition followed_by {E : Type} (x : E) (next : list E) (tr : list E)
  : Prop :=
  forall pre post, tr = pre ++ x :: post -> exists post', post = next ++ post'.

(** ** Sessions of the command pump *)

(** The script of a session in which [readline] returns [lines] one after
    the other and every [drain] completes. *)
Definition feed (lines : list bytes) : list (outcome bytes) :=
  flat_map (fun l => [Ret l; Ret []]) lines.

(** What the pump does with one non-empty line. *)
Definition echo (l : bytes) : list CommandPump.event :=
  [CommandPump.GotLine l; CommandPump.CallWrite l; CommandPump.CallDrain;
   CommandPump.Drained; CommandPump.CallReadline].

(** The invariant behind the ordering: whenever the pump is about to call
    [readline], every write so far has been drained. *)
Definition cmd_ordered (st : CommandPump.pc * list CommandPump.event) : Prop :=
  CommandPump.drain_between (snd st) /\
  (fst st = CommandPump.AtConnectReadPipe \/ fst st = CommandPump.AtReadline ->
   CommandPump.all_drained (snd st)).

(** The command pump is inside its read loop. *)
Definition in_loop (p : CommandPump.pc) : Prop :=
  p = CommandPump.AtReadline \/ p = CommandPump.AtDrain.

(** The ways the read loop ends that the pump treats as the end of its
    work: end-of-file on standard input, or a connection reset or a
    cancellation thrown at one of the two awaits of the loop. *)
Inductive loop_exit : CommandPump.pc -> outcome bytes -> Prop :=
| exit_eof : loop_exit CommandPump.AtReadline (Ret [])
| exit_readline e :
    CommandPump.handled e = true ->
    loop_exit CommandPump.AtReadline (Raise e)
| exit_drain e :
    CommandPump.handled e = true ->
    loop_exit CommandPump.AtDrain (Raise e).

(** A finished command pump either never got its pipe (the exception of
    [connect_read_pipe] is all there is), or its last actions were
    [close()] and the await of [wait_closed()]. *)
Definition cmd_closing_shape (st : CommandPump.pc * list CommandPump.event)
  : Prop :=
  match fst st with
  | CommandPump.AtConnectReadPipe =>
      snd st = [CommandPump.CallConnectReadPipe]
  | CommandPump.AtWaitClosed _ =>
      exists tr0,
        snd st = tr0 ++ [CommandPump.CallClose; CommandPump.CallWaitClosed]
  | CommandPump.Done r =>
      (exists e, r = Raised e /\
                 snd st = [CommandPump.CallConnectReadPipe;
                           CommandPump.Thrown e]) \/
      (exists tr0 last,
          snd st = tr0 ++ [CommandPump.CallClose; CommandPump.CallWaitClosed;
                           last]
          /\ (last = CommandPump.Closed \/
              exists e, last = CommandPump.Thrown e /\ r = Raised e))
  | _ => True
  end.

(** Two exceptions the peer of the command connection can cause. *)
Definition reset : exn := mk_exn ConnectionResetError "Connection lost".

Definition broken_pipe : exn := mk_exn BrokenPipeError "Broken pipe".

(** ** Sessions of the telemetry pump *)

(** What ends the telemetry loop: a zero-byte read or an exception. *)
Definition ends_reading (o : outcome bytes) : Prop :=
  match o with
  | Ret data => data = []
  | Raise _ => True
  end.

(** The non-empty chunks [read] returned, in order. *)
Definition chunks_read (tr : list TelemetryPump.event) : list bytes :=
  flat_map (fun e => match e with
                     | TelemetryPump.GotData d =>
                         if is_empty d then [] else [d]
                     | _ => []
                     end) tr.

(** ** Events and schedules of the supervisor *)

Definition is_task_done (t : Supervisor.task_id) (e : Supervisor.event)
  : bool :=
  match e, t with
  | Supervisor.TaskDone Supervisor.StdinTask _, Supervisor.StdinTask => true
  | Supervisor.TaskDone Supervisor.LogTask _, Supervisor.LogTask => true
  | _, _ => false
  end.

Definition is_any_task_done (e : Supervisor.event) : bool :=
  match e with Supervisor.TaskDone _ _ => true | _ => false end.

Definition is_wait_returned (e : Supervisor.event) : bool :=
  match e with Supervisor.WaitReturned => true | _ => false end.

Definition is_cancel (e : Supervisor.event) : bool :=
  match e with Supervisor.CallCancel _ => true | _ => false end.

Definition is_gather_returned (e : Supervisor.event) : bool :=
  match e with Supervisor.GatherReturned => true | _ => false end.

Definition is_open (port : N) (e : Supervisor.event) : bool :=
  match e with
  | Supervisor.CallOpenConnection p => N.eqb p port
  | _ => false
  end.

Definition is_connected (port : N) (e : Supervisor.event) : bool :=
  match e with
  | Supervisor.Connected p => N.eqb p port
  | _ => false
  end.

(** The supervisor's handler (lines 63-64) has run. *)
Definition is_thrown (e : Supervisor.event) : bool :=
  match e with Supervisor.Thrown _ => true | _ => false end.

(** Events of the supervisor's own code, as opposed to the pumps'. *)
Definition of_supervisor (e : Supervisor.event) : bool :=
  match e with
  | Supervisor.Cmd _ | Supervisor.Tel _ | Supervisor.TaskDone _ _ => false
  | _ => true
  end.

(** A schedule in which nothing is thrown at the supervisor's awaits. *)
Definition main_returns (c : Supervisor.choice) : Prop :=
  match c with
  | Supervisor.Main (Raise _) => False
  | _ => True
  end.

(** The supervisor has not finished. *)
Definition running (w : Supervisor.world) : bool :=
  match Supervisor.sup w with
  | Supervisor.Done _ => false
  | _ => true
  end.

(** The three things the supervisor prints when nothing goes wrong. *)
Definition ready_command (command_port : N) : string :=
  (Supervisor.nl ++ "Ready to command over port "
     ++ Supervisor.decimal command_port ++ Supervisor.nl)%string.

Definition ready_telemetry (log_port : N) : string :=
  ("Ready for telemetry over port "
     ++ Supervisor.decimal log_port ++ Supervisor.nl ++ Supervisor.nl)%string.

Definition notice : string :=
  (Supervisor.nl ++ "Disconnected" ++ Supervisor.nl)%string.

(** Line 66, as an event. *)
Definition disconnected : Supervisor.event :=
  Supervisor.print_err (Supervisor.nl ++ "Disconnected").

(** A task is done only if its completion is in the trace, and the tasks
    exist from the moment the supervisor waits for them. *)
Definition tasks_recorded (w : Supervisor.world) : Prop :=
  (Supervisor.cmd_done (Supervisor.stdin_task w) = true ->
   existsb (is_task_done Supervisor.StdinTask) (Supervisor.trace w) = true) /\
  (Supervisor.tel_done (Supervisor.log_task w) = true ->
   existsb (is_task_done Supervisor.LogTask) (Supervisor.trace w) = true) /\
  (Supervisor.sup w = Supervisor.AtWait \/
   Supervisor.sup w = Supervisor.AtGather ->
   Supervisor.stdin_task w <> None /\ Supervisor.log_task w <> None).

(** The pumps' own events within a supervised trace. *)
Definition cmd_events (tr : list Supervisor.event) : list CommandPump.event :=
  flat_map (fun e => match e with Supervisor.Cmd c => [c] | _ => [] end) tr.

Definition tel_events (tr : list Supervisor.event)
  : list TelemetryPump.event :=
  flat_map (fun e => match e with Supervisor.Tel c => [c] | _ => [] end) tr.

(** Each task's coroutine is where the pump, run on its own under some
    script, would be, with the same events; no task exists before the
    supervisor has both connections. *)
Definition supervised_pumps (w : Supervisor.world) : Prop :=
  match Supervisor.stdin_task w with
  | None => cmd_events (Supervisor.trace w) = []
  | Some t =>
      exists script,
        CommandPump.run script
        = (Supervisor.at_ t, cmd_events (Supervisor.trace w))
  end /\
  match Supervisor.log_task w with
  | None => tel_events (Supervisor.trace w) = []
  | Some t =>
      exists script,
        TelemetryPump.run script
        = (Supervisor.at_ t, tel_events (Supervisor.trace w))
  end /\
  (Supervisor.sup w = Supervisor.AtOpenCommand \/
   Supervisor.sup w = Supervisor.AtOpenLog ->
   Supervisor.stdin_task w = None /\ Supervisor.log_task w = None).

(** ** Further vocabulary *)

(** After [x], wherever it occurs, no [Q] event follows. *)
Definition never_after {E : Type} (x : E) (Q : E -> bool) (tr : list E)
  : Prop :=
  forall pre post, tr = pre ++ x :: post -> existsb Q post = false.

(** The command pump uses its streams: it reads, writes, drains or
    closes. *)
Definition uses_streams (e : CommandPump.event) : bool :=
  match e with
  | CommandPump.CallReadline | CommandPump.CallWrite _
  | CommandPump.CallDrain | CommandPump.CallClose => true
  | _ => false
  end.

(** The command pump is past its loop. *)
Definition closing (p : CommandPump.pc) : Prop :=
  match p with
  | CommandPump.AtWaitClosed _ | CommandPump.Done _ => True
  | _ => False
  end.

(** The state of the codec after [bs]: the sequence under way, if any.
    It follows [Utf8.go] case by case. *)
Definition lead_of (n : N) : option Utf8.lead :=
  match Utf8.classify n with
  | Utf8.Lead l => Some l
  | _ => None
  end.

Fixpoint pending_after (pending : option Utf8.lead) (bs : bytes)
  : option Utf8.lead :=
  match bs with
  | [] => pending
  | b :: rest =>
      let n := Byte.to_N b in
      match pending with
      | None => pending_after (lead_of n) rest
      | Some l =>
          if (Utf8.lo l <=? n)%N && (n <=? Utf8.hi l)%N then
            let cp := N.lor (N.shiftl (Utf8.bits l) 6) (N.land n 0x3F) in
            match Utf8.needed l with
            | 1%nat => pending_after None rest
            | k => pending_after
                     (Some (Utf8.mk_lead (pred k) cp 0x80 0xBF)) rest
            end
          else pending_after (lead_of n) rest
      end
  end.

(** A chunk that does not end in the middle of a character. *)
Definition complete (chunk : bytes) : Prop :=
  pending_after None chunk = None.

(** Line 64, as a line of standard error. *)
Definition error_line (e : exn) : string :=
  ("Error: " ++ exn_msg e ++ Supervisor.nl)%string.

(** Line 76, as an event. *)
Definition exiting : Supervisor.event :=
  Supervisor.print_err (Supervisor.nl ++ "Exiting...").


Definition is_pump_event (e : Supervisor.event) : bool :=
  negb (of_supervisor e).

Definition is_cmd_write (e : Supervisor.event) : bool :=
  match e with
  | Supervisor.Cmd (CommandPump.CallWrite _) => true
  | _ => false
  end.

Definition is_tel_print (e : Supervisor.event) : bool :=
  match e with
  | Supervisor.Tel (TelemetryPump.Print _) => true
  | _ => false
  end.

(** A command pump that will write no more: its task is asked to cancel,
    or its coroutine is past the loop. *)
Definition stdin_quiet (w : Supervisor.world) : Prop :=
  match Supervisor.stdin_task w with
  | Some t => Supervisor.must_cancel t = true \/ closing (Supervisor.at_ t)
  | None => True
  end.

(** A telemetry pump that will print no more. *)
Definition log_quiet (w : Supervisor.world) : Prop :=
  match Supervisor.log_task w with
  | Some t =>
      Supervisor.must_cancel t = true \/
      exists r, Supervisor.at_ t = TelemetryPump.Done r
  | None => True
  end.

(** The supervisor is past its [wait]. *)
Definition past_wait (w : Supervisor.world) : Prop :=
  Supervisor.sup w = Supervisor.AtGather \/
  exists r, Supervisor.sup w = Supervisor.Done r.


(** No pump exists before the telemetry connection is there. *)
Definition pumps_after_connections (log_port : N) (w : Supervisor.world)
  : Prop :=
  happens_before (is_connected log_port) is_pump_event (Supervisor.trace w) /\
  (Supervisor.stdin_task w <> None \/ Supervisor.log_task w <> None ->
   existsb (is_connected log_port) (Supervisor.trace w) = true).

(** * Properties *)

(** ** Traces extended at their end *)
Section Traces.

Variable E : Type.

(** An element of [tr ++ evs] lies in [tr] or in [evs]. *)
Lemma app_split_at (tr evs pre : list E) (x : E) (post : list E) :
  tr ++ evs = pre ++ x :: post ->
  (exists post0, tr = pre ++ x :: post0 /\ post = post0 ++ evs) \/
  (exists pre1, pre = tr ++ pre1 /\ evs = pre1 ++ x :: post).
Proof.
  revert pre. induction tr as [|t tr IH]; intros pre H.
  - right. exists pre. auto.
  - destruct pre as [|p pre]; simpl in H.
    + left. injection H as <- <-. exists tr. auto.
    + injection H as <- H. apply IH in H.
      destruct H as [(post0 & -> & ->) | (pre1 & -> & ->)].
      * left. exists post0. auto.
      * right. exists pre1. auto.
Qed.

Lemma snoc_split_at (tr : list E) (e : E) pre x post :
  tr ++ [e] = pre ++ x :: post ->
  (post = [] /\ pre = tr /\ x = e) \/
  (exists post0, post = post0 ++ [e] /\ tr = pre ++ x :: post0).
Proof.
  intros H. apply app_split_at in H.
  destruct H as [(post0 & -> & ->) | (pre1 & -> & H)].
  - right. exists post0. auto.
  - left. destruct pre1 as [|a [|b pre1]]; simpl in H.
    + injection H as <- <-. rewrite app_nil_r. auto.
    + injection H as _ H. discriminate.
    + injection H as _ H. discriminate.
Qed.

Lemma fold_left_snoc (A : Type) (f : A -> E -> A) (l : list E) (e : E) a :
  fold_left f (l ++ [e]) a = f (fold_left f l a) e.
Proof. now rewrite fold_left_app. Qed.

End Traces.

Lemma followed_by_app {E : Type} (x : E) next tr evs :
  followed_by x next tr ->
  followed_by x next evs ->
  followed_by x next (tr ++ evs).
Proof.
  intros Htr Hevs pre post H. apply app_split_at in H.
  destruct H as [(post0 & -> & ->) | (pre1 & -> & ->)].
  - destruct (Htr pre post0 eq_refl) as [post' ->].
    exists (post' ++ evs). now rewrite app_assoc.
  - now apply (Hevs pre1 post).
Qed.

Lemma followed_by_absent {E : Type} (x : E) next evs :
  ~ In x evs -> followed_by x next evs.
Proof.
  intros Hn pre post ->. exfalso. apply Hn, in_or_app. right. now left.
Qed.

(** The occurrences of an event in an explicit list. *)
Ltac occurrences H :=
  match type of H with
  | _ = ?pre ++ _ :: _ =>
      destruct pre as [|? ?]; cbn [app] in H;
      [ try discriminate H
      | first [ discriminate H | injection H as _ H; occurrences H ] ]
  end.

(** ** The command pump *)

Lemma cmd_run_snoc script o :
  CommandPump.run (script ++ [o])
  = CommandPump.advance (CommandPump.run script) o.
Proof. apply fold_left_snoc. Qed.

Lemma cmd_run_from_app st s1 s2 :
  CommandPump.run_from st (s1 ++ s2)
  = CommandPump.run_from (CommandPump.run_from st s1) s2.
Proof. apply fold_left_app. Qed.

Lemma cmd_written_app tr evs :
  CommandPump.written (tr ++ evs)
  = CommandPump.written tr ++ CommandPump.written evs.
Proof. apply flat_map_app. Qed.

Lemma cmd_lines_read_app tr evs :
  CommandPump.lines_read (tr ++ evs)
  = CommandPump.lines_read tr ++ CommandPump.lines_read evs.
Proof. apply flat_map_app. Qed.

(** One resumption writes exactly the non-empty line it was given. *)
Lemma cmd_resume_echo p o :
  CommandPump.written (snd (CommandPump.resume p o))
  = CommandPump.lines_read (snd (CommandPump.resume p o)).
Proof.
  destruct p as [| | |pending|r], o as [line|e]; try reflexivity.
  - destruct line; reflexivity.
Qed.

Lemma cmd_written_eq_read script :
  CommandPump.written (snd (CommandPump.run script))
  = CommandPump.lines_read (snd (CommandPump.run script)).
Proof.
  induction script as [|o script IH] using rev_ind; [reflexivity|].
  rewrite cmd_run_snoc. unfold CommandPump.advance.
  pose proof (cmd_resume_echo (fst (CommandPump.run script)) o) as He.
  destruct (CommandPump.resume (fst (CommandPump.run script)) o) as [p' evs].
  simpl in *. now rewrite cmd_written_app, cmd_lines_read_app, IH, He.
Qed.

Lemma all_drained_snoc tr e :
  CommandPump.all_drained tr ->
  (forall d, e <> CommandPump.CallWrite d) ->
  CommandPump.all_drained (tr ++ [e]).
Proof.
  intros Htr Hne pre d post H. apply snoc_split_at in H.
  destruct H as [(_ & _ & He) | (post0 & -> & ->)].
  - exfalso. now apply (Hne d).
  - apply in_or_app. left. now apply (Htr pre d).
Qed.

Lemma all_drained_snoc_Drained tr :
  CommandPump.all_drained (tr ++ [CommandPump.Drained]).
Proof.
  intros pre d post H. apply snoc_split_at in H.
  destruct H as [(_ & _ & He) | (post0 & -> & _)]; [discriminate|].
  apply in_or_app. right. now left.
Qed.

Lemma drain_between_snoc tr e :
  CommandPump.drain_between tr ->
  (e = CommandPump.CallReadline -> CommandPump.all_drained tr) ->
  CommandPump.drain_between (tr ++ [e]).
Proof.
  intros Htr He pre d mid post H.
  change (pre ++ CommandPump.CallWrite d :: mid
            ++ CommandPump.CallReadline :: post)
    with (pre ++ (CommandPump.CallWrite d :: mid)
            ++ CommandPump.CallReadline :: post) in H.
  rewrite app_assoc in H. apply snoc_split_at in H.
  destruct H as [(_ & Hpre & Hx) | (post0 & -> & H)].
  - symmetry in Hx, Hpre. apply (He Hx pre d mid Hpre).
  - rewrite <- app_assoc in H. apply (Htr pre d mid post0 H).
Qed.

Ltac snoc_events :=
  repeat match goal with
    | |- context [?tr ++ ?a :: ?b :: ?l] =>
        change (tr ++ a :: b :: l) with (tr ++ [a] ++ b :: l);
        rewrite (app_assoc tr [a] (b :: l))
    end.

Ltac drained_by Hd :=
  repeat (first [ apply all_drained_snoc_Drained
                | apply all_drained_snoc; [|discriminate] ]);
  try (apply Hd; auto).

Lemma cmd_ordered_run script : cmd_ordered (CommandPump.run script).
Proof.
  induction script as [|o script IH] using rev_ind.
  - split.
    + intros pre d mid post H.
      destruct pre as [|? [|? ?]]; simpl in H; try discriminate;
        injection H as _ H; destruct mid; discriminate.
    + intros _ pre d post H.
      destruct pre as [|? [|? ?]]; discriminate.
  - rewrite cmd_run_snoc. unfold CommandPump.advance.
    destruct (CommandPump.run script) as [p tr].
    destruct IH as [Hb Hd]. simpl in Hb, Hd. unfold cmd_ordered.
    destruct p as [| | |pending|r], o as [line|e]; simpl;
      try (destruct line; simpl);
      try unfold CommandPump.in_try_raise; simpl;
      try rewrite app_nil_r; snoc_events;
      (split;
       [ repeat (apply drain_between_snoc;
                 [| first [ discriminate | intros _; drained_by Hd ]]);
         assumption
       | intros [Hp|Hp]; try discriminate; drained_by Hd ]).
Qed.

(** A non-empty line is handed to [write] as it was read, and the drain
    is awaited next. *)
Lemma cmd_write_follows_read script l :
  l <> [] ->
  followed_by (CommandPump.GotLine l)
    [CommandPump.CallWrite l; CommandPump.CallDrain]
    (snd (CommandPump.run script)).
Proof.
  intros Hl. induction script as [|o script IH] using rev_ind.
  - apply followed_by_absent. cbn. intuition discriminate.
  - rewrite cmd_run_snoc. unfold CommandPump.advance.
    destruct (CommandPump.run script) as [p tr]. cbn [fst snd] in *.
    destruct p as [| | |pending|r], o as [line|e];
      cbn [CommandPump.resume CommandPump.in_try_raise CommandPump.finally_];
      try (destruct line as [|b line];
           cbn [is_empty CommandPump.finally_]);
      cbn [snd]; (apply followed_by_app; [assumption|]);
      try (apply followed_by_absent; cbn; intuition congruence).
    intros pre post H. occurrences H.
    injection H as <- <-. now exists [].
Qed.

Lemma cmd_forwarding_facts script :
  CommandPump.written (snd (CommandPump.run script))
  = CommandPump.lines_read (snd (CommandPump.run script)) /\
  CommandPump.drain_between (snd (CommandPump.run script)).
Proof.
  split; [apply cmd_written_eq_read | apply cmd_ordered_run].
Qed.

(** C1.  For every script of await outcomes: a non-empty line that
    [readline] returns is handed to [write] at once and as it is, and the
    drain is awaited next; the chunks handed to the command connection are
    exactly those lines, in the order they were read, so the byte stream
    on the connection is their concatenation; and between a write and any
    later call of [readline] a drain has completed. *)
Theorem command_lines_forwarded_in_order :
  forall script : list (outcome bytes),
    let tr := snd (CommandPump.run script) in
    (forall l, is_empty l = false ->
               followed_by (CommandPump.GotLine l)
                 [CommandPump.CallWrite l; CommandPump.CallDrain] tr) /\
    CommandPump.written tr = CommandPump.lines_read tr /\
    CommandPump.wire tr = List.concat (CommandPump.lines_read tr) /\
    CommandPump.drain_between tr.
Proof.
  intros script tr. subst tr. split; [|split; [|split]].
  - intros l Hl. apply cmd_write_follows_read. now destruct l.
  - apply cmd_written_eq_read.
  - unfold CommandPump.wire. now rewrite cmd_written_eq_read.
  - apply cmd_ordered_run.
Qed.

Lemma command_lines_forwarded_in_order_witness :
  let l := ["s"; "t"; "a"; "t"; "u"; "s"; x0a]%byte in
  let script := [Ret []; Ret l; Ret []; Ret ["g"; "o"; x0a]%byte; Ret []] in
  is_empty l = false /\
  followed_by (CommandPump.GotLine l)
    [CommandPump.CallWrite l; CommandPump.CallDrain]
    (snd (CommandPump.run script)) /\
  CommandPump.wire (snd (CommandPump.run script))
  = ["s"; "t"; "a"; "t"; "u"; "s"; x0a; "g"; "o"; x0a]%byte.
Proof.
  intros l script.
  assert (Hl : is_empty l = false) by reflexivity.
  destruct (command_lines_forwarded_in_order script) as (Hw & _ & Hwire & _).
  split; [exact Hl|]. split; [exact (Hw l Hl)|].
  exact (eq_trans Hwire eq_refl).
Defined.

Lemma cmd_advance_line tr l :
  l <> [] ->
  CommandPump.run_from (CommandPump.AtReadline, tr) [Ret l; Ret []]
  = (CommandPump.AtReadline, tr ++ echo l).
Proof.
  intros Hl. destruct l as [|b l]; [congruence|].
  cbn. now rewrite <- app_assoc.
Qed.

Lemma cmd_run_feed lines : forall tr,
  Forall (fun l => l <> []) lines ->
  CommandPump.run_from (CommandPump.AtReadline, tr) (feed lines)
  = (CommandPump.AtReadline, tr ++ flat_map echo lines).
Proof.
  induction lines as [|l lines IH]; intros tr Hne.
  - cbn. now rewrite app_nil_r.
  - inversion Hne as [|? ? Hl Hrest]; subst.
    change (feed (l :: lines)) with ([Ret l; Ret []] ++ feed lines).
    rewrite cmd_run_from_app, cmd_advance_line by assumption.
    rewrite IH by assumption.
    now rewrite <- app_assoc.
Qed.

Lemma cmd_written_echo lines :
  Forall (fun l => l <> []) lines ->
  CommandPump.written (flat_map echo lines) = lines.
Proof.
  induction 1 as [|l lines Hl _ IH]; [reflexivity|].
  cbn [flat_map]. rewrite cmd_written_app, IH. reflexivity.
Qed.

(** C9.  When the last thing [readline] returns before end-of-file is a
    non-empty partial line (any non-empty bytes, in particular bytes that
    do not end in a newline), the pump writes it verbatim after the lines
    before it, and only then closes the connection; a read is followed by
    no write exactly when it is empty. *)
Theorem partial_last_line_forwarded :
  forall (lines : list bytes) (partial : bytes),
    Forall (fun l => l <> []) lines ->
    partial <> [] ->
    let script := Ret [] :: feed (lines ++ [partial]) ++ [Ret []; Ret []] in
    CommandPump.run script
    = (CommandPump.Done Returned,
       [CommandPump.CallConnectReadPipe; CommandPump.PipeConnected;
        CommandPump.CallReadline]
         ++ flat_map echo lines ++ echo partial
         ++ [CommandPump.GotLine []; CommandPump.CallClose;
             CommandPump.CallWaitClosed; CommandPump.Closed])
    /\ CommandPump.wire (snd (CommandPump.run script))
       = List.concat lines ++ partial
    /\ (forall line,
           CommandPump.written
             (snd (CommandPump.resume CommandPump.AtReadline (Ret line)))
           = if is_empty line then [] else [line]).
Proof.
  intros lines partial Hlines Hpartial script.
  assert (Hall : Forall (fun l => l <> []) (lines ++ [partial])).
  { apply Forall_app. split; [assumption|]. now constructor. }
  assert (Hrun : CommandPump.run script
                 = (CommandPump.Done Returned,
                    [CommandPump.CallConnectReadPipe;
                     CommandPump.PipeConnected; CommandPump.CallReadline]
                      ++ flat_map echo lines ++ echo partial
                      ++ [CommandPump.GotLine []; CommandPump.CallClose;
                          CommandPump.CallWaitClosed; CommandPump.Closed])).
  { unfold script, CommandPump.run.
    change (Ret [] :: feed (lines ++ [partial]) ++ [Ret []; Ret []])
      with ([Ret []] ++ feed (lines ++ [partial]) ++ [Ret []; Ret []]).
    rewrite !cmd_run_from_app.
    change (CommandPump.run_from CommandPump.start [Ret []])
      with (CommandPump.AtReadline,
            [CommandPump.CallConnectReadPipe; CommandPump.PipeConnected;
             CommandPump.CallReadline]).
    rewrite cmd_run_feed by assumption.
    rewrite flat_map_app. cbn [flat_map]. rewrite app_nil_r.
    cbn [CommandPump.run_from fold_left CommandPump.advance
           CommandPump.resume fst snd is_empty CommandPump.finally_].
    f_equal. rewrite <- !app_assoc. reflexivity. }
  split; [exact Hrun|]. split.
  - rewrite Hrun. unfold CommandPump.wire. cbn [snd].
    rewrite !cmd_written_app.
    rewrite cmd_written_echo by assumption.
    cbn. rewrite concat_app. cbn. now rewrite !app_nil_r.
  - intros [|b line]; reflexivity.
Qed.

Lemma partial_last_line_forwarded_witness :
  let lines := ["s"; "t"; "a"; "t"; "u"; "s"; x0a]%byte :: nil in
  let partial := ["f"; "i"; "r"; "e"]%byte in
  Forall (fun l : bytes => l <> []) lines /\ partial <> [] /\
  CommandPump.wire
    (snd (CommandPump.run
            (Ret [] :: feed (lines ++ [partial]) ++ [Ret []; Ret []])))
  = ["s"; "t"; "a"; "t"; "u"; "s"; x0a; "f"; "i"; "r"; "e"]%byte.
Proof.
  intros lines partial.
  assert (Hl : Forall (fun l : bytes => l <> []) lines)
    by (repeat constructor; discriminate).
  assert (Hp : partial <> []) by discriminate.
  split; [exact Hl|]. split; [exact Hp|].
  exact (proj1 (proj2 (@partial_last_line_forwarded lines partial Hl Hp))).
Defined.

(** C4.  Whenever the read loop ends by end-of-file, a connection reset or
    a cancellation, the pump calls [close()], then awaits [wait_closed()],
    and finishes only when that await does: it returns when the close has
    completed (and raises what [wait_closed] raises otherwise). *)
Theorem command_pump_closes_on_exit :
  forall (script : list (outcome bytes)) (cause closing : outcome bytes),
    loop_exit (fst (CommandPump.run script)) cause ->
    fst (CommandPump.run (script ++ [cause])) = CommandPump.AtWaitClosed None
    /\ exists head last r,
        CommandPump.run (script ++ [cause; closing])
        = (CommandPump.Done r,
           snd (CommandPump.run script)
             ++ [head; CommandPump.CallClose; CommandPump.CallWaitClosed;
                 last])
        /\ match closing with
           | Ret _ => last = CommandPump.Closed /\ r = Returned
           | Raise e => last = CommandPump.Thrown e /\ r = Raised e
           end.
Proof.
  intros script cause closing Hexit.
  change (script ++ [cause; closing])
    with (script ++ [cause] ++ [closing]).
  rewrite app_assoc, !cmd_run_snoc.
  destruct (CommandPump.run script) as [p tr]. cbn [fst snd] in *.
  unfold CommandPump.advance at 1 3. cbn [fst snd].
  inversion Hexit as [Hp Hc | e He Hp Hc | e He Hp Hc]; subst;
    cbn [CommandPump.resume is_empty CommandPump.finally_
           CommandPump.in_try_raise];
    try rewrite He; cbn [fst snd]; (split; [reflexivity|]);
    unfold CommandPump.advance; cbn [fst snd];
    destruct closing as [x|e']; cbn [CommandPump.resume];
    rewrite <- app_assoc; cbn [app];
    (do 3 eexists; split; [reflexivity | split; reflexivity]).
Qed.

Lemma command_pump_closes_on_exit_witness :
  let script := [Ret []; Ret ["g"; "o"; x0a]%byte; Ret []] in
  loop_exit (fst (CommandPump.run script)) (Ret []) /\
  fst (CommandPump.run (script ++ [Ret []])) = CommandPump.AtWaitClosed None.
Proof.
  intros script.
  assert (H : loop_exit (fst (CommandPump.run script)) (Ret []))
    by exact exit_eof.
  split; [exact H|].
  exact (proj1 (@command_pump_closes_on_exit script (Ret []) (Ret []) H)).
Defined.

Lemma cmd_closing_shape_run script : cmd_closing_shape (CommandPump.run script).
Proof.
  induction script as [|o script IH] using rev_ind; [reflexivity|].
  rewrite cmd_run_snoc. unfold CommandPump.advance, cmd_closing_shape in *.
  destruct (CommandPump.run script) as [p tr]. cbn [fst snd] in *.
  destruct p as [| | |pending|r], o as [line|e];
    cbn [CommandPump.resume CommandPump.in_try_raise CommandPump.finally_
           fst snd];
    try (destruct line; cbn [is_empty CommandPump.finally_ fst snd]);
    try exact I; subst;
    try (left; eexists; split; reflexivity).
  - exists (tr ++ [CommandPump.GotLine []]). now rewrite <- app_assoc.
  - exists (tr ++ [CommandPump.Thrown e]). now rewrite <- app_assoc.
  - exists (tr ++ [CommandPump.Thrown e]). now rewrite <- app_assoc.
  - destruct IH as [tr0 ->]. right. exists tr0, CommandPump.Closed.
    rewrite <- app_assoc. split; [reflexivity | now left].
  - destruct IH as [tr0 ->]. right. exists tr0, CommandPump.Closed.
    rewrite <- app_assoc. split; [reflexivity | now left].
  - destruct IH as [tr0 ->]. right. exists tr0, (CommandPump.Thrown e).
    rewrite <- app_assoc. split; [reflexivity | right; eauto].
  - now rewrite app_nil_r.
  - now rewrite app_nil_r.
  - now rewrite app_nil_r.
Qed.

(** ** The telemetry pump *)

Lemma tel_run_snoc script o :
  TelemetryPump.run (script ++ [o])
  = TelemetryPump.advance (TelemetryPump.run script) o.
Proof. apply fold_left_snoc. Qed.

Lemma tel_stdout_app tr evs :
  TelemetryPump.stdout (tr ++ evs)
  = TelemetryPump.stdout tr ++ TelemetryPump.stdout evs.
Proof.
  unfold TelemetryPump.stdout. now rewrite flat_map_app, concat_app.
Qed.

(** Whatever the script, standard output is the concatenation of the
    decodings of the non-empty chunks read so far. *)
Lemma tel_stdout_decoded script :
  TelemetryPump.stdout (snd (TelemetryPump.run script))
  = List.concat
      (map Utf8.decode (chunks_read (snd (TelemetryPump.run script)))).
Proof.
  induction script as [|o script IH] using rev_ind; [reflexivity|].
  rewrite tel_run_snoc. unfold TelemetryPump.advance.
  destruct (TelemetryPump.run script) as [p tr]. cbn [fst snd] in *.
  unfold chunks_read in *.
  destruct p as [|r], o as [data|e]; cbn [TelemetryPump.resume];
    try (destruct data as [|b data]; cbn [is_empty]); cbn [snd];
    rewrite tel_stdout_app, flat_map_app, map_app, concat_app, IH;
    f_equal; cbn; unfold py_print; rewrite ?app_nil_r; reflexivity.
Qed.

Lemma tel_run_chunks chunks : forall tr,
  Forall (fun c => c <> []) chunks ->
  TelemetryPump.run_from (TelemetryPump.AtRead, tr) (map Ret chunks)
  = (TelemetryPump.AtRead,
     tr ++ flat_map (fun c => [TelemetryPump.GotData c;
                               TelemetryPump.Print (Utf8.decode c);
                               TelemetryPump.CallRead 1024]) chunks).
Proof.
  induction chunks as [|c chunks IH]; intros tr Hne.
  - cbn. now rewrite app_nil_r.
  - inversion Hne as [|? ? Hc Hrest]; subst.
    destruct c as [|b c]; [congruence|].
    cbn [map TelemetryPump.run_from fold_left].
    unfold TelemetryPump.advance at 2.
    cbn [fst snd TelemetryPump.resume is_empty].
    unfold py_print. rewrite app_nil_r.
    change (fold_left TelemetryPump.advance (map Ret chunks))
      with (fun st => TelemetryPump.run_from st (map Ret chunks)).
    cbn beta. rewrite IH by assumption.
    cbn [flat_map]. now rewrite <- app_assoc.
Qed.

(** C2.  For every sequence of non-empty chunks read from the telemetry
    connection, however the reading then ends, standard output holds the
    concatenation of the chunks' decodings (each chunk decoded as UTF-8
    with replacement), nothing more and nothing less, and the pump has
    finished. *)
Theorem telemetry_prints_decoded_chunks :
  forall (chunks : list bytes) (fin : outcome bytes),
    Forall (fun c => c <> []) chunks ->
    ends_reading fin ->
    let st := TelemetryPump.run (map Ret chunks ++ [fin]) in
    TelemetryPump.stdout (snd st) = List.concat (map Utf8.decode chunks)
    /\ exists r, fst st = TelemetryPump.Done r.
Proof.
  intros chunks fin Hne Hfin st. subst st.
  rewrite tel_run_snoc. unfold TelemetryPump.run.
  change TelemetryPump.start
    with (TelemetryPump.AtRead, [TelemetryPump.CallRead 1024]).
  rewrite tel_run_chunks by assumption.
  unfold TelemetryPump.advance. cbn [fst snd].
  assert (Hout : forall cs,
             TelemetryPump.stdout
               (flat_map (fun c => [TelemetryPump.GotData c;
                                    TelemetryPump.Print (Utf8.decode c);
                                    TelemetryPump.CallRead 1024]) cs)
             = List.concat (map Utf8.decode cs)).
  { induction cs as [|c cs IH]; [reflexivity|].
    cbn [flat_map map List.concat].
    change ([TelemetryPump.GotData c; TelemetryPump.Print (Utf8.decode c);
             TelemetryPump.CallRead 1024] ++ ?l)
      with ([TelemetryPump.GotData c; TelemetryPump.Print (Utf8.decode c);
             TelemetryPump.CallRead 1024] ++ l).
    rewrite tel_stdout_app, IH. unfold TelemetryPump.stdout at 1. cbn.
    now rewrite app_nil_r. }
  destruct fin as [data|e]; cbn in Hfin; subst;
    cbn [TelemetryPump.resume is_empty fst snd];
    rewrite !tel_stdout_app, Hout; cbn;
    rewrite app_nil_r; (split; [reflexivity | eexists; reflexivity]).
Qed.

Lemma telemetry_prints_decoded_chunks_witness :
  let chunks := [["O"; "K"; x0a]%byte; [xff; xfe]%byte] in
  Forall (fun c : bytes => c <> []) chunks /\ ends_reading (Ret []) /\
  TelemetryPump.stdout (snd (TelemetryPump.run (map Ret chunks ++ [Ret []])))
  = [79; 75; 10; 0xFFFD; 0xFFFD]%N.
Proof.
  intros chunks.
  assert (Hc : Forall (fun c : bytes => c <> []) chunks)
    by (repeat constructor; discriminate).
  assert (He : ends_reading (Ret [])) by reflexivity.
  split; [exact Hc|]. split; [exact He|].
  exact (proj1 (@telemetry_prints_decoded_chunks chunks (Ret []) Hc He)).
Defined.

(** The codec on the inputs the specification names, and on bytes below
    0x80, which decode to themselves. *)
Example decode_ok :
  Utf8.decode ["O"; "K"; x0a]%byte = [79; 75; 10]%N.
Proof. reflexivity. Qed.

Example decode_invalid :
  Utf8.decode [xff; xfe]%byte = [Utf8.replacement; Utf8.replacement].
Proof. reflexivity. Qed.

Lemma decode_ascii (data : bytes) :
  Forall (fun b => (Byte.to_N b < 0x80)%N) data ->
  Utf8.decode data = map Byte.to_N data.
Proof.
  unfold Utf8.decode. induction 1 as [|b data Hb _ IH]; [reflexivity|].
  cbn [Utf8.go map]. unfold Utf8.classify.
  apply N.ltb_lt in Hb. rewrite Hb. cbn [app]. now rewrite IH.
Qed.

(** Decoding is per chunk: a character whose bytes arrive in two reads is
    printed as two replacement characters, not as the character. *)
Example decode_split_character :
  Utf8.decode [xc3; xa9]%byte = [233]%N /\
  TelemetryPump.stdout
    (snd (TelemetryPump.run [Ret [xc3]%byte; Ret [xa9]%byte; Ret []]))
  = [Utf8.replacement; Utf8.replacement].
Proof. split; reflexivity. Qed.

(** ** Order of events in a trace *)
Section Order.

Variable E : Type.
Variables P Q : E -> bool.

Lemma happens_before_nil : happens_before P Q [].
Proof. intros [|? ?] x post H; discriminate. Qed.

Lemma happens_before_app tr evs :
  happens_before P Q tr ->
  (forall pre1 x post, evs = pre1 ++ x :: post -> Q x = true ->
                       existsb P (tr ++ pre1) = true) ->
  happens_before P Q (tr ++ evs).
Proof.
  intros Htr Hevs pre x post H Hq. apply app_split_at in H.
  destruct H as [(post0 & -> & _) | (pre1 & -> & ->)].
  - eapply Htr; eauto.
  - eapply Hevs; eauto.
Qed.

Lemma ordered_from_sound evs : forall tr,
  happens_before P Q tr ->
  ordered_from P Q (existsb P tr) evs = true ->
  happens_before P Q (tr ++ evs).
Proof.
  induction evs as [|x rest IH]; intros tr Htr Hck.
  - now rewrite app_nil_r.
  - cbn [ordered_from] in Hck. apply andb_prop in Hck as [Hx Hrest].
    change (tr ++ x :: rest) with (tr ++ [x] ++ rest).
    rewrite app_assoc. apply IH.
    + apply happens_before_app; [assumption|].
      intros [|a [|b pre1]] y post Heq Hq; try discriminate.
      injection Heq as <- _. rewrite app_nil_r.
      rewrite Hq in Hx. cbn in Hx. exact Hx.
    + rewrite existsb_app. cbn [existsb]. now rewrite orb_false_r.
Qed.

Lemma ordered_from_none evs : forall seen,
  existsb Q evs = false -> ordered_from P Q seen evs = true.
Proof.
  induction evs as [|x rest IH]; intros seen H; [reflexivity|].
  cbn in H. apply orb_false_elim in H as [Hx Hrest].
  cbn [ordered_from]. rewrite Hx. cbn. now apply IH.
Qed.

End Order.

(** ** The supervisor *)

Section Schedules.

Variables command_port log_port : N.

Local Abbreviation run := (Supervisor.run command_port log_port).
Local Abbreviation step := (Supervisor.step command_port log_port).
Local Abbreviation step_main := (Supervisor.step_main command_port log_port).

Lemma run_snoc schedule c : run (schedule ++ [c]) = step (run schedule) c.
Proof. apply fold_left_snoc. Qed.

Lemma run_app s1 s2 :
  run (s1 ++ s2) = fold_left step s2 (run s1).
Proof. apply fold_left_app. Qed.

Lemma run_invariant (I : Supervisor.world -> Prop) :
  I (Supervisor.init command_port) ->
  (forall w c, I w -> I (step w c)) ->
  forall schedule, I (run schedule).
Proof.
  intros H0 Hstep schedule.
  induction schedule as [|c schedule IH] using rev_ind; [exact H0|].
  rewrite run_snoc. now apply Hstep.
Qed.

(** Once the supervisor has finished, nothing of this program runs. *)
Lemma step_done w c r :
  Supervisor.sup w = Supervisor.Done r -> step w c = w.
Proof.
  intros H. destruct c as [o|o|o]; cbn;
    unfold Supervisor.step_main, Supervisor.step_stdin, Supervisor.step_log;
    rewrite H; reflexivity.
Qed.

Lemma steps_done w schedule r :
  Supervisor.sup w = Supervisor.Done r -> fold_left step schedule w = w.
Proof.
  intros H. induction schedule as [|c schedule IH]; [reflexivity|].
  cbn [fold_left]. now rewrite (step_done w c r H).
Qed.

(** The effect of resuming a pump: the pump's events, then the task's
    completion if the coroutine finished; the supervisor does not move. *)
Lemma step_stdin_effect w o :
  Supervisor.step_stdin w o = w \/
  exists p c,
    Supervisor.stdin_task w = Some (Supervisor.mk_task p c) /\
    let st := CommandPump.resume p (Supervisor.deliver c o) in
    Supervisor.step_stdin w o
    = Supervisor.mk_world (Supervisor.sup w)
        (Some (Supervisor.mk_task (fst st) false)) (Supervisor.log_task w)
        (Supervisor.trace w ++ map Supervisor.Cmd (snd st)
           ++ Supervisor.cmd_finished (fst st)).
Proof.
  unfold Supervisor.step_stdin.
  destruct (Supervisor.sup w); auto;
    destruct (Supervisor.stdin_task w) as [[p c]|]; auto;
    destruct p; auto; right; do 2 eexists; (split; [reflexivity|]);
    cbv zeta;
    match goal with
    | |- context [CommandPump.resume ?p ?o] =>
        destruct (CommandPump.resume p o); reflexivity
    end.
Qed.

Lemma step_log_effect w o :
  Supervisor.step_log w o = w \/
  exists p c,
    Supervisor.log_task w = Some (Supervisor.mk_task p c) /\
    let st := TelemetryPump.resume p (Supervisor.deliver c o) in
    Supervisor.step_log w o
    = Supervisor.mk_world (Supervisor.sup w) (Supervisor.stdin_task w)
        (Some (Supervisor.mk_task (fst st) false))
        (Supervisor.trace w ++ map Supervisor.Tel (snd st)
           ++ Supervisor.tel_finished (fst st)).
Proof.
  unfold Supervisor.step_log.
  destruct (Supervisor.sup w); auto;
    destruct (Supervisor.log_task w) as [[p c]|]; auto;
    destruct p; auto; right; do 2 eexists; (split; [reflexivity|]);
    cbv zeta;
    match goal with
    | |- context [TelemetryPump.resume ?p ?o] =>
        destruct (TelemetryPump.resume p o); reflexivity
    end.
Qed.

(** A pump's step adds no event of the supervisor's own code. *)
Lemma pump_events_not_supervisor (Q : Supervisor.event -> bool) cevs tevs p q :
  (forall e, of_supervisor e = false -> Q e = false) ->
  existsb Q (map Supervisor.Cmd cevs ++ Supervisor.cmd_finished p) = false /\
  existsb Q (map Supervisor.Tel tevs ++ Supervisor.tel_finished q) = false.
Proof.
  intros HQ. split; rewrite existsb_app; apply orb_false_intro.
  - induction cevs as [|e l IH]; [reflexivity|]. cbn. now rewrite HQ, IH.
  - destruct p; try reflexivity. cbn. now rewrite HQ.
  - induction tevs as [|e l IH]; [reflexivity|]. cbn. now rewrite HQ, IH.
  - destruct q; try reflexivity. cbn. now rewrite HQ.
Qed.

End Schedules.

Lemma stderr_app tr evs :
  Supervisor.stderr (tr ++ evs)
  = Supervisor.stderr tr ++ Supervisor.stderr evs.
Proof. apply flat_map_app. Qed.

(** The cases of one step of the supervisor's own code. *)
Ltac main_cases w o Hs :=
  unfold Supervisor.step_main, Supervisor.fail, Supervisor.except_finally;
  destruct (Supervisor.sup w) eqn:Hs; destruct o as [?|?e];
  try match goal with
    | |- context [isinstance ?e Exception] =>
        destruct (isinstance e Exception) eqn:?
    end;
  try match goal with
    | |- context [if ?b then _ else _] => destruct b eqn:?
    end;
  cbn [Supervisor.sup Supervisor.trace Supervisor.stdin_task
         Supervisor.log_task CommandPump.start TelemetryPump.start].

(** The shape of a trace whose supervisor has finished. *)
Lemma done_ends_disconnected command_port log_port schedule r :
  Supervisor.sup (Supervisor.run command_port log_port schedule)
  = Supervisor.Done r ->
  exists tr0,
    Supervisor.trace (Supervisor.run command_port log_port schedule)
    = tr0 ++ [disconnected].
Proof.
  revert r.
  apply (run_invariant command_port log_port
           (fun w => forall r, Supervisor.sup w = Supervisor.Done r ->
                               exists tr0, Supervisor.trace w
                                           = tr0 ++ [disconnected])).
  - discriminate.
  - intros w c IH r.
    destruct (running w) eqn:Hrun.
    + destruct c as [o|o|o]; cbn [Supervisor.step].
      * unfold running in Hrun.
        main_cases w o Hs; try discriminate; try (rewrite Hs; discriminate);
          intros _;
          match goal with
          | |- exists tr0, ?tr ++ ?evs = _ =>
              exists (tr ++ removelast evs); cbn [removelast];
              rewrite <- app_assoc; reflexivity
          end.
      * destruct (step_stdin_effect w o) as [-> | (p & c & _ & ->)];
          [apply IH|]. cbn [Supervisor.sup]. intros H.
        unfold running in Hrun. rewrite H in Hrun. discriminate.
      * destruct (step_log_effect w o) as [-> | (p & c & _ & ->)];
          [apply IH|]. cbn [Supervisor.sup]. intros H.
        unfold running in Hrun. rewrite H in Hrun. discriminate.
    + assert (Hd : exists r0, Supervisor.sup w = Supervisor.Done r0).
      { unfold running in Hrun.
        destruct (Supervisor.sup w); try discriminate. eauto. }
      destruct Hd as [r0 Hd].
      rewrite (step_done command_port log_port w c r0 Hd). apply IH.
Qed.

(** The supervisor's paths to its end: an exception thrown at any of its
    awaits ends it at once; at [gather], with both pumps done, it
    returns. *)
Lemma supervisor_exits command_port log_port schedule :
  let w := Supervisor.run command_port log_port schedule in
  (running w = true ->
   forall e, exists r,
       Supervisor.sup
         (Supervisor.run command_port log_port
            (schedule ++ [Supervisor.Main (Raise e)]))
       = Supervisor.Done r) /\
  (Supervisor.sup w = Supervisor.AtGather ->
   Supervisor.cmd_done (Supervisor.stdin_task w)
   && Supervisor.tel_done (Supervisor.log_task w) = true ->
   Supervisor.sup
     (Supervisor.run command_port log_port
        (schedule ++ [Supervisor.Main (Ret tt)]))
   = Supervisor.Done Returned).
Proof.
  intros w. split.
  - intros Hrun e. rewrite run_snoc. fold w. cbn [Supervisor.step].
    unfold running in Hrun.
    unfold Supervisor.step_main, Supervisor.fail, Supervisor.except_finally.
    destruct (Supervisor.sup w); try discriminate;
      destruct (isinstance e Exception); eexists; reflexivity.
  - intros Hs Hdone. rewrite run_snoc. fold w. cbn [Supervisor.step].
    unfold Supervisor.step_main. now rewrite Hs, Hdone.
Qed.

(** C8.  On every path on which the supervisor finishes, by returning or
    by letting an exception through, the last thing its trace holds is the
    disconnection notice on standard error; and it does finish on each of
    these paths: at once when an exception is thrown at one of its awaits
    (the first [open_connection] included), and from [gather] once both
    pumps are done. *)
Theorem disconnected_on_every_exit :
  forall command_port log_port schedule,
    let w := Supervisor.run command_port log_port schedule in
    (forall r,
        Supervisor.sup w = Supervisor.Done r ->
        (exists tr0, Supervisor.trace w = tr0 ++ [disconnected]) /\
        last (Supervisor.stderr (Supervisor.trace w)) EmptyString = notice) /\
    (running w = true ->
     forall e, exists r,
         Supervisor.sup
           (Supervisor.run command_port log_port
              (schedule ++ [Supervisor.Main (Raise e)]))
         = Supervisor.Done r) /\
    (Supervisor.sup w = Supervisor.AtGather ->
     Supervisor.cmd_done (Supervisor.stdin_task w)
     && Supervisor.tel_done (Supervisor.log_task w) = true ->
     Supervisor.sup
       (Supervisor.run command_port log_port
          (schedule ++ [Supervisor.Main (Ret tt)]))
     = Supervisor.Done Returned).
Proof.
  intros command_port log_port schedule w. split.
  - intros r Hdone.
    destruct (done_ends_disconnected _ _ _ _ Hdone) as [tr0 Htr].
    split; [now exists tr0|]. subst w.
    rewrite Htr, stderr_app. unfold disconnected, Supervisor.print_err.
    cbn [Supervisor.stderr flat_map app].
    rewrite last_last. reflexivity.
  - apply supervisor_exits.
Qed.

(** No connection was ever established: the notice is printed all the
    same. *)
Lemma disconnected_on_every_exit_witness :
  let refused := mk_exn ConnectionRefusedError "Connect call failed" in
  let schedule := [Supervisor.Main (Raise refused)] in
  Supervisor.sup (Supervisor.run 8124 8125 schedule)
  = Supervisor.Done Returned /\
  last (Supervisor.stderr
          (Supervisor.trace (Supervisor.run 8124 8125 schedule)))
    EmptyString
  = notice.
Proof.
  intros refused schedule.
  assert (H : Supervisor.sup (Supervisor.run 8124 8125 schedule)
              = Supervisor.Done Returned) by reflexivity.
  split; [exact H|].
  exact (proj2 (proj1 (disconnected_on_every_exit 8124 8125 schedule)
                  Returned H)).
Defined.

(** *** What the tasks' states say about the trace *)

Lemma cmd_done_cancel t :
  Supervisor.cmd_done (Supervisor.cancel_cmd t) = Supervisor.cmd_done t.
Proof. destruct t as [[[] c]|]; reflexivity. Qed.

Lemma tel_done_cancel t :
  Supervisor.tel_done (Supervisor.cancel_tel t) = Supervisor.tel_done t.
Proof. destruct t as [[[] c]|]; reflexivity. Qed.

Lemma tasks_recorded_run command_port log_port schedule :
  tasks_recorded (Supervisor.run command_port log_port schedule).
Proof.
  apply run_invariant; unfold tasks_recorded.
  - cbn. repeat split; try discriminate; destruct H; discriminate.
  - intros w c (Hc & Ht & Hex). destruct c as [o|o|o]; cbn [Supervisor.step].
    + main_cases w o Hs;
        rewrite ?cmd_done_cancel, ?tel_done_cancel, ?existsb_app;
        (split; [|split]);
        try solve [intros H; rewrite ?Hc, ?Ht by exact H; reflexivity];
        try solve [intros [H|H]; discriminate H];
        try solve [discriminate];
        try solve [intros _; split; discriminate];
        try solve [rewrite Hs; exact Hex].
      intros _. destruct (Hex (or_introl eq_refl)) as [H1 H2].
      split; [destruct (Supervisor.stdin_task w) as [[[] ?]|]
             | destruct (Supervisor.log_task w) as [[[] ?]|]];
        cbn; congruence.
    + destruct (step_stdin_effect w o) as [-> | (p & c & Hp & ->)];
        [auto|]. cbv zeta.
      cbn [Supervisor.sup Supervisor.stdin_task Supervisor.log_task
             Supervisor.trace Supervisor.cmd_done].
      rewrite !existsb_app. repeat split.
      * intros H.
        destruct (fst (CommandPump.resume p (Supervisor.deliver c o)));
          try discriminate.
        cbn. now rewrite !orb_true_r.
      * intros H. now rewrite Ht.
      * discriminate.
      * now apply Hex.
    + destruct (step_log_effect w o) as [-> | (p & c & Hp & ->)];
        [auto|]. cbv zeta.
      cbn [Supervisor.sup Supervisor.stdin_task Supervisor.log_task
             Supervisor.trace Supervisor.tel_done].
      rewrite !existsb_app. repeat split.
      * intros H. now rewrite Hc.
      * intros H.
        destruct (fst (TelemetryPump.resume p (Supervisor.deliver c o)));
          try discriminate.
        cbn. now rewrite !orb_true_r.
      * now apply Hex.
      * discriminate.
Qed.

Lemma pump_events_in e cevs tevs p q :
  In e (map Supervisor.Cmd cevs ++ Supervisor.cmd_finished p) \/
  In e (map Supervisor.Tel tevs ++ Supervisor.tel_finished q) ->
  of_supervisor e = false.
Proof.
  intros [H|H]; apply in_app_or in H as [H|H].
  - apply in_map_iff in H as (x & <- & _). reflexivity.
  - destruct p; cbn in H; try contradiction.
    destruct H as [<-|[]]. reflexivity.
  - apply in_map_iff in H as (x & <- & _). reflexivity.
  - destruct q; cbn in H; try contradiction.
    destruct H as [<-|[]]. reflexivity.
Qed.

(** An order between events of the supervisor's own code holds along
    every schedule as soon as the supervisor's steps keep it. *)
Lemma happens_before_run command_port log_port
      (P Q : Supervisor.event -> bool) :
  (forall e, of_supervisor e = false -> Q e = false) ->
  Q (Supervisor.CallOpenConnection command_port) = false ->
  (forall w o,
      tasks_recorded w ->
      happens_before P Q (Supervisor.trace w) ->
      happens_before P Q
        (Supervisor.trace (Supervisor.step_main command_port log_port w o))) ->
  forall schedule,
    happens_before P Q
      (Supervisor.trace (Supervisor.run command_port log_port schedule)).
Proof.
  intros HQ H0 Hmain schedule.
  induction schedule as [|c schedule IH] using rev_ind.
  - apply (ordered_from_sound _ P Q _ []); [apply happens_before_nil|].
    cbn. now rewrite H0.
  - rewrite run_snoc. destruct c as [o|o|o]; cbn [Supervisor.step].
    + apply Hmain; [apply tasks_recorded_run | assumption].
    + destruct (step_stdin_effect
                  (Supervisor.run command_port log_port schedule) o)
        as [-> | (p & c & _ & ->)]; [assumption|].
      cbv zeta. cbn [Supervisor.trace].
      apply ordered_from_sound; [assumption|]. apply ordered_from_none.
      apply (pump_events_not_supervisor Q _ [] _ (TelemetryPump.AtRead) HQ).
    + destruct (step_log_effect
                  (Supervisor.run command_port log_port schedule) o)
        as [-> | (p & c & _ & ->)]; [assumption|].
      cbv zeta. cbn [Supervisor.trace].
      apply ordered_from_sound; [assumption|]. apply ordered_from_none.
      apply (pump_events_not_supervisor Q [] _ (CommandPump.AtReadline) _ HQ).
Qed.

Lemma followed_by_run command_port log_port (x : Supervisor.event) next :
  of_supervisor x = true ->
  x <> Supervisor.CallOpenConnection command_port ->
  (forall w o,
      followed_by x next (Supervisor.trace w) ->
      followed_by x next
        (Supervisor.trace (Supervisor.step_main command_port log_port w o))) ->
  forall schedule,
    followed_by x next
      (Supervisor.trace (Supervisor.run command_port log_port schedule)).
Proof.
  intros Hx H0 Hmain schedule.
  induction schedule as [|c schedule IH] using rev_ind.
  - apply followed_by_absent. cbn. intros [H|[]]. now apply H0.
  - rewrite run_snoc. destruct c as [o|o|o]; cbn [Supervisor.step].
    + now apply Hmain.
    + destruct (step_stdin_effect
                  (Supervisor.run command_port log_port schedule) o)
        as [-> | (p & c & _ & ->)]; [assumption|].
      cbv zeta. cbn [Supervisor.trace].
      apply followed_by_app; [assumption|]. apply followed_by_absent.
      intros Hin.
      rewrite (pump_events_in x _ [] _ TelemetryPump.AtRead (or_introl Hin))
        in Hx. discriminate.
    + destruct (step_log_effect
                  (Supervisor.run command_port log_port schedule) o)
        as [-> | (p & c & _ & ->)]; [assumption|].
      cbv zeta. cbn [Supervisor.trace].
      apply followed_by_app; [assumption|]. apply followed_by_absent.
      intros Hin.
      rewrite (pump_events_in x [] _ CommandPump.AtReadline _ (or_intror Hin))
        in Hx. discriminate.
Qed.

Lemma existsb_weaken {A : Type} (P P' : A -> bool) l :
  (forall a, P a = true -> P' a = true) ->
  existsb P l = true -> existsb P' l = true.
Proof.
  intros H. induction l as [|a l IH]; [discriminate|].
  cbn. intros Hl. apply orb_prop in Hl as [Ha|Hl].
  - now rewrite (H a Ha).
  - rewrite (IH Hl). apply orb_true_r.
Qed.

(** The supervisor's step keeps the order, given what the step's guard
    tells about the trace so far. *)
Ltac main_order w o Hrec :=
  let Hs := fresh "Hs" in
  main_cases w o Hs; try assumption;
  apply ordered_from_sound; try assumption; cbn;
  rewrite ?orb_true_r, ?orb_false_r, ?andb_true_r; try reflexivity.

Lemma wait_after_first_completion command_port log_port schedule :
  happens_before is_any_task_done is_wait_returned
    (Supervisor.trace (Supervisor.run command_port log_port schedule)).
Proof.
  apply happens_before_run; try reflexivity.
  - intros [] H; try reflexivity; discriminate.
  - intros w o (Hc & Ht & _) Hb. main_order w o Hrec.
    apply orb_prop in Heqb as [H|H].
    + apply Hc in H. revert H. apply existsb_weaken. now intros [].
    + apply Ht in H. revert H. apply existsb_weaken. now intros [].
Qed.

Lemma gather_after_task (t : Supervisor.task_id)
      command_port log_port schedule :
  happens_before (is_task_done t) is_gather_returned
    (Supervisor.trace (Supervisor.run command_port log_port schedule)).
Proof.
  apply happens_before_run; try reflexivity.
  - intros [] H; try reflexivity; discriminate.
  - intros w o (Hc & Ht & _) Hb. main_order w o Hrec.
    apply andb_prop in Heqb as [H1 H2].
    destruct t; [now apply Hc | now apply Ht].
Qed.

Lemma cancel_after_wait command_port log_port schedule :
  happens_before is_wait_returned is_cancel
    (Supervisor.trace (Supervisor.run command_port log_port schedule)).
Proof.
  apply happens_before_run; try reflexivity.
  - intros [] H; try reflexivity; discriminate.
  - intros w o _ Hb. main_order w o Hrec.
Qed.

Lemma cancels_follow_wait command_port log_port schedule :
  followed_by Supervisor.WaitReturned
    [Supervisor.CallCancel Supervisor.StdinTask;
     Supervisor.CallCancel Supervisor.LogTask; Supervisor.CallGather]
    (Supervisor.trace (Supervisor.run command_port log_port schedule)).
Proof.
  apply followed_by_run; try reflexivity; try discriminate.
  intros w o Hf. main_cases w o Hs; try assumption;
    (apply followed_by_app; [assumption|]);
    try (apply followed_by_absent; cbn; intuition discriminate).
  intros pre post H. occurrences H. injection H as <-. now exists [].
Qed.

Lemma notice_follows_gather command_port log_port schedule :
  followed_by Supervisor.GatherReturned [disconnected]
    (Supervisor.trace (Supervisor.run command_port log_port schedule)).
Proof.
  apply followed_by_run; try reflexivity; try discriminate.
  intros w o Hf. main_cases w o Hs; try assumption;
    (apply followed_by_app; [assumption|]);
    try (apply followed_by_absent; cbn; intuition discriminate).
  intros pre post H. occurrences H. injection H as <-. now exists [].
Qed.

(** From the moment one pump is done, the shutdown completes: the
    supervisor leaves its wait, the other pump ends at its next resumption
    (the command pump at its second, after closing), and the supervisor
    returns, whatever the pumps' awaits deliver. *)
Lemma shutdown_completes command_port log_port schedule o1 o2 o3 :
  let w := Supervisor.run command_port log_port schedule in
  Supervisor.sup w = Supervisor.AtWait ->
  Supervisor.cmd_done (Supervisor.stdin_task w)
  || Supervisor.tel_done (Supervisor.log_task w) = true ->
  Supervisor.sup
    (Supervisor.run command_port log_port
       (schedule ++ [Supervisor.Main (Ret tt)]))
  = Supervisor.AtGather /\
  Supervisor.sup
    (Supervisor.run command_port log_port
       (schedule ++ [Supervisor.Main (Ret tt); Supervisor.Stdin o1;
                     Supervisor.Stdin o2; Supervisor.Telemetry o3;
                     Supervisor.Main (Ret tt)]))
  = Supervisor.Done Returned.
Proof.
  intros w Hs Hdone. rewrite !run_app.
  pose proof (tasks_recorded_run command_port log_port schedule)
    as (_ & _ & Hex).
  fold w in Hex |- *. destruct (Hex (or_introl Hs)) as [H1 H2].
  destruct w as [s st lt tr]. cbn [Supervisor.sup Supervisor.stdin_task
                                    Supervisor.log_task] in *.
  subst s. destruct st as [[p c]|]; [|congruence].
  destruct lt as [[q d]|]; [|congruence].
  destruct p as [| | |pending|r], q as [|r']; cbn in Hdone;
    try discriminate; (split; [reflexivity|]);
    destruct c, d, o1, o2, o3; reflexivity.
Qed.

(** C3.  Along every schedule: [wait] returns only after a pump has
    finished, and it takes one finished pump, not both, for the supervisor
    to go on; [cancel()] is then called on both tasks at once (it does
    nothing to the finished one); [gather] returns only after both pumps
    have finished, and the disconnection notice comes directly after it;
    whatever the pumps' awaits deliver during the forced shutdown,
    including exceptions, the supervisor returns normally. *)
Theorem supervisor_first_completed_cancel_join :
  forall command_port log_port schedule o1 o2 o3,
    let w := Supervisor.run command_port log_port schedule in
    let tr := Supervisor.trace w in
    happens_before is_any_task_done is_wait_returned tr /\
    happens_before is_wait_returned is_cancel tr /\
    followed_by Supervisor.WaitReturned
      [Supervisor.CallCancel Supervisor.StdinTask;
       Supervisor.CallCancel Supervisor.LogTask; Supervisor.CallGather] tr /\
    happens_before (is_task_done Supervisor.StdinTask) is_gather_returned tr /\
    happens_before (is_task_done Supervisor.LogTask) is_gather_returned tr /\
    followed_by Supervisor.GatherReturned [disconnected] tr /\
    (Supervisor.sup w = Supervisor.AtWait ->
     Supervisor.cmd_done (Supervisor.stdin_task w)
     || Supervisor.tel_done (Supervisor.log_task w) = true ->
     Supervisor.sup
       (Supervisor.run command_port log_port
          (schedule ++ [Supervisor.Main (Ret tt)]))
     = Supervisor.AtGather /\
     Supervisor.sup
       (Supervisor.run command_port log_port
          (schedule ++ [Supervisor.Main (Ret tt); Supervisor.Stdin o1;
                        Supervisor.Stdin o2; Supervisor.Telemetry o3;
                        Supervisor.Main (Ret tt)]))
     = Supervisor.Done Returned).
Proof.
  intros command_port log_port schedule o1 o2 o3 w tr. subst w tr.
  repeat split.
  - apply wait_after_first_completion.
  - apply cancel_after_wait.
  - apply cancels_follow_wait.
  - apply gather_after_task.
  - apply gather_after_task.
  - apply notice_follows_gather.
  - now apply (shutdown_completes command_port log_port schedule o1 o2 o3).
  - now apply (shutdown_completes command_port log_port schedule o1 o2 o3).
Qed.

(** One pump (the command pump, at end-of-file) has finished while the
    telemetry pump is still reading: the supervisor goes on to shut down. *)
Lemma supervisor_first_completed_cancel_join_witness :
  let schedule :=
    [Supervisor.Main (Ret tt); Supervisor.Main (Ret tt);
     Supervisor.Stdin (Ret []); Supervisor.Stdin (Ret []);
     Supervisor.Stdin (Ret [])] in
  let w := Supervisor.run 8124 8125 schedule in
  Supervisor.sup w = Supervisor.AtWait /\
  Supervisor.cmd_done (Supervisor.stdin_task w)
  || Supervisor.tel_done (Supervisor.log_task w) = true /\
  Supervisor.tel_done (Supervisor.log_task w) = false /\
  Supervisor.sup
    (Supervisor.run 8124 8125
       (schedule ++ [Supervisor.Main (Ret tt); Supervisor.Stdin (Ret []);
                     Supervisor.Stdin (Ret []);
                     Supervisor.Telemetry (Ret ["O"; "K"]%byte);
                     Supervisor.Main (Ret tt)]))
  = Supervisor.Done Returned.
Proof.
  intros schedule w.
  assert (Hs : Supervisor.sup w = Supervisor.AtWait) by reflexivity.
  assert (Hd : Supervisor.cmd_done (Supervisor.stdin_task w)
               || Supervisor.tel_done (Supervisor.log_task w) = true)
    by reflexivity.
  split; [exact Hs|]. split; [exact Hd|]. split; [reflexivity|].
  exact (proj2
           (proj2 (proj2 (proj2 (proj2 (proj2 (proj2
              (supervisor_first_completed_cancel_join 8124 8125 schedule
                 (Ret []) (Ret []) (Ret ["O"; "K"]%byte))))))) Hs Hd)).
Defined.

(** C5.  When the connection to the command port is refused, the program
    reports the error on standard error, prints the disconnection notice
    and ends, and [open_connection] is never called for the telemetry
    port; in every run the call for the telemetry port comes after the
    command connection was established. *)
Theorem command_refused_no_telemetry :
  forall (msg : string) (rest : list Supervisor.choice),
    let refused := mk_exn ConnectionRefusedError msg in
    Supervisor.main (Supervisor.Main (Raise refused) :: rest)
    = (Some Returned,
       [Supervisor.CallOpenConnection 8124;
        Supervisor.Thrown refused;
        Supervisor.print_err ("Error: " ++ msg);
        disconnected])
    /\ forall schedule,
        happens_before (is_connected 8124) (is_open 8125)
          (Supervisor.trace (Supervisor.run 8124 8125 schedule)).
Proof.
  intros msg rest refused. split.
  - unfold Supervisor.main, Supervisor.run. cbn [fold_left].
    rewrite (steps_done 8124 8125 _ rest Returned); reflexivity.
  - intros schedule. apply happens_before_run; try reflexivity.
    + intros [] H; try reflexivity; discriminate.
    + intros w o _ Hb. main_order w o Hrec.
Qed.

(** *** What reaches standard error when nothing is thrown at the
    supervisor's own awaits *)

Lemma string_app_assoc (a b c : string) :
  ((a ++ b) ++ c = a ++ b ++ c)%string.
Proof. induction a as [|x a IH]; cbn; [reflexivity | now rewrite IH]. Qed.

Lemma stderr_pump_events cevs tevs p q :
  Supervisor.stderr
    (map Supervisor.Cmd cevs ++ Supervisor.cmd_finished p) = [] /\
  Supervisor.stderr
    (map Supervisor.Tel tevs ++ Supervisor.tel_finished q) = [].
Proof.
  split; rewrite stderr_app.
  - replace (Supervisor.stderr (map Supervisor.Cmd cevs)) with (@nil string)
      by (induction cevs; [reflexivity | assumption]).
    destruct p; reflexivity.
  - replace (Supervisor.stderr (map Supervisor.Tel tevs)) with (@nil string)
      by (induction tevs; [reflexivity | assumption]).
    destruct q; reflexivity.
Qed.

(** Whatever the pumps' awaits deliver, they add nothing to standard
    error and throw nothing at the supervisor. *)
Lemma pumps_report_nothing command_port log_port schedule :
  Forall main_returns schedule ->
  let w := Supervisor.run command_port log_port schedule in
  existsb is_thrown (Supervisor.trace w) = false /\
  incl (Supervisor.stderr (Supervisor.trace w))
    [ready_command command_port; ready_telemetry log_port; notice] /\
  (forall e, Supervisor.sup w <> Supervisor.Done (Raised e)).
Proof.
  induction schedule as [|c schedule IH] using rev_ind; intros Hret.
  - cbn. repeat split; [intros s [] | discriminate].
  - apply Forall_app in Hret as [Hret Hc].
    inversion Hc as [|? ? Hmain _]; subst. specialize (IH Hret).
    cbv zeta in *. rewrite run_snoc.
    destruct IH as (Hth & Hinc & Hnr).
    set (w := Supervisor.run command_port log_port schedule) in *.
    destruct c as [o|o|o]; cbn [Supervisor.step].
    + destruct o as [x|e]; [|contradiction].
      unfold Supervisor.step_main.
      destruct (Supervisor.sup w) eqn:Hs;
        repeat match goal with
          | |- context [if ?b then _ else _] => destruct b eqn:?
          end;
        cbn [Supervisor.sup Supervisor.trace CommandPump.start
               TelemetryPump.start];
        rewrite ?Hs, ?existsb_app, ?stderr_app, ?Hth;
        (split; [try reflexivity; try assumption|]);
        (split; [try assumption; try (apply incl_app; [assumption|])
                | try assumption; try discriminate]);
        unfold Supervisor.print_err; cbn [Supervisor.stderr flat_map app map];
        unfold ready_command, ready_telemetry, notice;
        rewrite ?string_app_assoc;
        try (intros s [<-|[]]; cbn [In]; tauto);
        try (intros s []).
    + destruct (step_stdin_effect w o) as [-> | (p & c & _ & ->)];
        [auto|]. cbv zeta. cbn [Supervisor.trace Supervisor.sup].
      rewrite existsb_app, stderr_app, Hth.
      rewrite (proj1 (stderr_pump_events _ [] _ TelemetryPump.AtRead)).
      rewrite app_nil_r. repeat split; try assumption.
      apply (pump_events_not_supervisor is_thrown _ [] _ TelemetryPump.AtRead).
      intros [] H; try reflexivity; discriminate.
    + destruct (step_log_effect w o) as [-> | (p & c & _ & ->)];
        [auto|]. cbv zeta. cbn [Supervisor.trace Supervisor.sup].
      rewrite existsb_app, stderr_app, Hth.
      rewrite (proj2 (stderr_pump_events [] _ CommandPump.AtReadline _)).
      rewrite app_nil_r. repeat split; try assumption.
      apply (pump_events_not_supervisor is_thrown [] _ CommandPump.AtReadline).
      intros [] H; try reflexivity; discriminate.
Qed.

(** The supervisor lets through only what [except Exception] does not
    catch. *)
Lemma supervisor_raises_no_exception command_port log_port schedule :
  match Supervisor.sup (Supervisor.run command_port log_port schedule) with
  | Supervisor.Done (Raised e) => isinstance e Exception = false
  | _ => True
  end.
Proof.
  apply run_invariant; [exact I|].
  intros w c IH. destruct c as [o|o|o]; cbn [Supervisor.step].
  - main_cases w o Hs; rewrite ?Hs; try exact I; try assumption.
  - destruct (step_stdin_effect w o) as [-> | (p & c & _ & ->)];
      [exact IH|]. exact IH.
  - destruct (step_log_effect w o) as [-> | (p & c & _ & ->)];
      [exact IH|]. exact IH.
Qed.

(** C10.  An exception of class [Exception] thrown at any await of the
    supervisor is caught: its message is printed, then the notice, and
    [tcp_translation_client] returns, and so does [main].  Whatever the
    schedule, what [main] lets through is neither an [Exception] nor a
    [KeyboardInterrupt]. *)
Theorem ordinary_exceptions_never_escape :
  forall (schedule : list Supervisor.choice) (e : exn),
    isinstance e Exception = true ->
    running (Supervisor.run 8124 8125 schedule) = true ->
    let w := Supervisor.run 8124 8125 schedule in
    let schedule' := schedule ++ [Supervisor.Main (Raise e)] in
    let w' := Supervisor.run 8124 8125 schedule' in
    Supervisor.sup w' = Supervisor.Done Returned /\
    Supervisor.trace w'
    = Supervisor.trace w
        ++ [Supervisor.Thrown e;
            Supervisor.print_err ("Error: " ++ exn_msg e);
            disconnected] /\
    fst (Supervisor.main schedule') = Some Returned /\
    forall any : list Supervisor.choice,
      match fst (Supervisor.main any) with
      | Some (Raised e') =>
          isinstance e' Exception = false /\
          isinstance e' KeyboardInterrupt = false
      | _ => True
      end.
Proof.
  intros schedule e He Hrun w schedule' w'.
  assert (Hw' : w' = Supervisor.mk_world (Supervisor.Done Returned)
                       (Supervisor.stdin_task w) (Supervisor.log_task w)
                       (Supervisor.trace w
                          ++ [Supervisor.Thrown e;
                              Supervisor.print_err ("Error: " ++ exn_msg e);
                              disconnected])).
  { subst w' schedule'. rewrite run_snoc. fold w. cbn [Supervisor.step].
    unfold running in Hrun. fold w in Hrun.
    unfold Supervisor.step_main, Supervisor.fail, Supervisor.except_finally.
    rewrite He. destruct (Supervisor.sup w); try discriminate; reflexivity. }
  repeat split.
  - now rewrite Hw'.
  - now rewrite Hw'.
  - unfold Supervisor.main. fold schedule' w'. now rewrite Hw'.
  - intros any. unfold Supervisor.main.
    pose proof (supervisor_raises_no_exception 8124 8125 any) as H.
    destruct (Supervisor.sup (Supervisor.run 8124 8125 any)) as [| | | |[|e']];
      try exact I.
    destruct (isinstance e' KeyboardInterrupt) eqn:Hk; cbn [fst];
      [exact I | now split].
Qed.

Lemma ordinary_exceptions_never_escape_witness :
  let e := mk_exn OSError "Network is unreachable" in
  let schedule := [Supervisor.Main (Ret tt)] in
  isinstance e Exception = true /\
  running (Supervisor.run 8124 8125 schedule) = true /\
  Supervisor.trace
    (Supervisor.run 8124 8125 (schedule ++ [Supervisor.Main (Raise e)]))
  = Supervisor.trace (Supervisor.run 8124 8125 schedule)
      ++ [Supervisor.Thrown e;
          Supervisor.print_err "Error: Network is unreachable";
          disconnected] /\
  fst (Supervisor.main (schedule ++ [Supervisor.Main (Raise e)]))
  = Some Returned.
Proof.
  intros e schedule.
  assert (He : isinstance e Exception = true) by reflexivity.
  assert (Hr : running (Supervisor.run 8124 8125 schedule) = true)
    by reflexivity.
  split; [exact He|]. split; [exact Hr|].
  destruct (ordinary_exceptions_never_escape schedule e He Hr)
    as (_ & Htr & Hmain & _).
  split; [exact Htr | exact Hmain].
Defined.

(** ** Exceptions inside the pumps *)

Lemma cmd_raise_in_loop script e closing :
  in_loop (fst (CommandPump.run script)) ->
  CommandPump.run (script ++ [Raise e; closing])
  = (CommandPump.Done
       match closing with
       | Ret _ => if CommandPump.handled e then Returned else Raised e
       | Raise e' => Raised e'
       end,
     snd (CommandPump.run script)
       ++ [CommandPump.Thrown e; CommandPump.CallClose;
           CommandPump.CallWaitClosed;
           match closing with
           | Ret _ => CommandPump.Closed
           | Raise e' => CommandPump.Thrown e'
           end]).
Proof.
  intros Hloop.
  change (script ++ [Raise e; closing])
    with (script ++ [Raise e] ++ [closing]).
  rewrite app_assoc, !cmd_run_snoc.
  destruct (CommandPump.run script) as [p tr]. cbn [fst snd] in *.
  destruct Hloop as [-> | ->];
    unfold CommandPump.advance; cbn [fst snd CommandPump.resume];
    unfold CommandPump.in_try_raise; cbn [CommandPump.finally_ fst snd];
    destruct closing as [x|e']; cbn [CommandPump.resume];
    rewrite <- app_assoc; cbn [app];
    destruct (CommandPump.handled e); reflexivity.
Qed.

Lemma tel_raise_in_loop script e :
  fst (TelemetryPump.run script) = TelemetryPump.AtRead ->
  TelemetryPump.run (script ++ [Raise e])
  = (TelemetryPump.Done
       (if TelemetryPump.handled e then Returned else Raised e),
     snd (TelemetryPump.run script) ++ [TelemetryPump.Thrown e]).
Proof.
  intros Hp. rewrite tel_run_snoc.
  destruct (TelemetryPump.run script) as [p tr]. cbn [fst snd] in *.
  subst p. reflexivity.
Qed.

(** C6, as stated, fails.  The command pump has read end-of-file and is
    awaiting [wait_closed()] when the telemetry pump finishes; the
    supervisor cancels the command pump's task, and the cancellation, thrown
    in the [finally] clause, leaves the pump.  Likewise a reset caught at
    [drain] and raised again by [wait_closed()] leaves the pump. *)
Lemma cancel_while_closing_leaves_pump :
  let schedule :=
    [Supervisor.Main (Ret tt); Supervisor.Main (Ret tt);
     Supervisor.Stdin (Ret []);          (* the pipe is connected *)
     Supervisor.Stdin (Ret []);          (* end-of-file: close, wait_closed *)
     Supervisor.Telemetry (Ret []);      (* the telemetry peer closed *)
     Supervisor.Main (Ret tt);           (* wait returns: cancel both *)
     Supervisor.Stdin (Ret [])] in
  let w := Supervisor.run 8124 8125 schedule in
  existsb is_cancel (Supervisor.trace w) = true /\
  Supervisor.stdin_task w
  = Some (Supervisor.mk_task
            (CommandPump.Done (Raised Supervisor.cancelled)) false) /\
  CommandPump.handled Supervisor.cancelled = true /\
  CommandPump.handled reset = true /\
  fst (CommandPump.run
         [Ret []; Ret ["g"; "o"; x0a]%byte; Raise reset; Raise reset])
  = CommandPump.Done (Raised reset).
Proof. repeat split; reflexivity. Qed.

(** C6, amended.  A [ConnectionResetError] or a [CancelledError] thrown at
    an await of a pump's loop is absorbed by the pump: the telemetry pump
    returns; the command pump closes its connection and returns when
    [wait_closed()] returns, and raises what [wait_closed()] raises
    otherwise.  Whatever the pumps receive, standard error holds nothing
    but the readiness lines and the disconnection notice as long as
    nothing is thrown at the supervisor's own awaits. *)
Theorem reset_or_cancel_in_loop_absorbed :
  forall (e : exn) (tscript cscript : list (outcome bytes))
         (closing : outcome bytes)
         (command_port log_port : N) (schedule : list Supervisor.choice),
    isinstance e ConnectionResetError || isinstance e CancelledError = true ->
    fst (TelemetryPump.run tscript) = TelemetryPump.AtRead ->
    in_loop (fst (CommandPump.run cscript)) ->
    Forall main_returns schedule ->
    fst (TelemetryPump.run (tscript ++ [Raise e]))
    = TelemetryPump.Done Returned /\
    fst (CommandPump.run (cscript ++ [Raise e; closing]))
    = CommandPump.Done match closing with
                       | Ret _ => Returned
                       | Raise e' => Raised e'
                       end /\
    incl (Supervisor.stderr
            (Supervisor.trace
               (Supervisor.run command_port log_port schedule)))
      [ready_command command_port; ready_telemetry log_port; notice].
Proof.
  intros e tscript cscript closing command_port log_port schedule
         He Ht Hc Hm.
  repeat split.
  - rewrite tel_raise_in_loop by assumption. cbn [fst].
    unfold TelemetryPump.handled. now rewrite He.
  - rewrite cmd_raise_in_loop by assumption. cbn [fst].
    unfold CommandPump.handled. rewrite He. now destruct closing.
  - now apply pumps_report_nothing.
Qed.

Lemma reset_or_cancel_in_loop_absorbed_witness :
  let tscript := [Ret ["O"; "K"]%byte] in
  let cscript := [Ret []; Ret ["g"; "o"; x0a]%byte] in
  let schedule :=
    [Supervisor.Main (Ret tt); Supervisor.Main (Ret tt);
     Supervisor.Stdin (Ret []); Supervisor.Telemetry (Raise reset);
     Supervisor.Main (Ret tt); Supervisor.Stdin (Ret []);
     Supervisor.Stdin (Ret []); Supervisor.Main (Ret tt)] in
  (isinstance reset ConnectionResetError
   || isinstance reset CancelledError = true) /\
  fst (TelemetryPump.run tscript) = TelemetryPump.AtRead /\
  in_loop (fst (CommandPump.run cscript)) /\
  Forall main_returns schedule /\
  fst (TelemetryPump.run (tscript ++ [Raise reset]))
  = TelemetryPump.Done Returned /\
  fst (CommandPump.run (cscript ++ [Raise reset; Ret []]))
  = CommandPump.Done Returned.
Proof.
  intros tscript cscript schedule.
  assert (He : isinstance reset ConnectionResetError
               || isinstance reset CancelledError = true) by reflexivity.
  assert (Ht : fst (TelemetryPump.run tscript) = TelemetryPump.AtRead)
    by reflexivity.
  assert (Hc : in_loop (fst (CommandPump.run cscript)))
    by (right; reflexivity).
  assert (Hm : Forall main_returns schedule)
    by (repeat constructor).
  split; [exact He|]. split; [exact Ht|]. split; [exact Hc|].
  split; [exact Hm|].
  destruct (reset_or_cancel_in_loop_absorbed reset tscript cscript (Ret [])
              8124 8125 schedule He Ht Hc Hm) as (H1 & H2 & _).
  split; [exact H1 | exact H2].
Defined.

(** C7, as stated, fails.  A [BrokenPipeError] raised by [drain] is not
    one of the two classes the pump handles: after the [finally] clause it
    leaves the coroutine.  So does any other error of the telemetry read. *)
Lemma broken_pipe_leaves_pump :
  isinstance broken_pipe OSError = true /\
  CommandPump.handled broken_pipe = false /\
  CommandPump.run [Ret []; Ret ["g"; "o"; x0a]%byte; Raise broken_pipe; Ret []]
  = (CommandPump.Done (Raised broken_pipe),
     [CommandPump.CallConnectReadPipe; CommandPump.PipeConnected;
      CommandPump.CallReadline; CommandPump.GotLine ["g"; "o"; x0a]%byte;
      CommandPump.CallWrite ["g"; "o"; x0a]%byte; CommandPump.CallDrain;
      CommandPump.Thrown broken_pipe; CommandPump.CallClose;
      CommandPump.CallWaitClosed; CommandPump.Closed]) /\
  TelemetryPump.run [Raise (mk_exn OSError "Connection timed out")]
  = (TelemetryPump.Done (Raised (mk_exn OSError "Connection timed out")),
     [TelemetryPump.CallRead 1024;
      TelemetryPump.Thrown (mk_exn OSError "Connection timed out")]).
Proof. repeat split; reflexivity. Qed.

(** C7, amended.  An exception thrown at an await of a pump's loop ends
    that pump: the pump returns if the exception is a
    [ConnectionResetError] or a [CancelledError], and otherwise the
    exception leaves the coroutine (the command pump closing its connection
    first) and stays with the pump's task.  It never reaches the
    supervisor: as long as nothing is thrown at the supervisor's own awaits
    (connection setup, [wait], [gather]), the supervisor's handler does not
    run, nothing but the readiness lines and the notice is printed, and
    the supervisor does not raise. *)
Theorem pump_errors_stay_with_the_pump :
  forall (e : exn) (tscript cscript : list (outcome bytes))
         (command_port log_port : N) (schedule : list Supervisor.choice),
    fst (TelemetryPump.run tscript) = TelemetryPump.AtRead ->
    in_loop (fst (CommandPump.run cscript)) ->
    Forall main_returns schedule ->
    let w := Supervisor.run command_port log_port schedule in
    fst (TelemetryPump.run (tscript ++ [Raise e]))
    = TelemetryPump.Done
        (if TelemetryPump.handled e then Returned else Raised e) /\
    CommandPump.run (cscript ++ [Raise e; Ret []])
    = (CommandPump.Done
         (if CommandPump.handled e then Returned else Raised e),
       snd (CommandPump.run cscript)
         ++ [CommandPump.Thrown e; CommandPump.CallClose;
             CommandPump.CallWaitClosed; CommandPump.Closed]) /\
    existsb is_thrown (Supervisor.trace w) = false /\
    incl (Supervisor.stderr (Supervisor.trace w))
      [ready_command command_port; ready_telemetry log_port; notice] /\
    (forall e', Supervisor.sup w <> Supervisor.Done (Raised e')).
Proof.
  intros e tscript cscript command_port log_port schedule Ht Hc Hm w.
  split; [|split].
  - now rewrite tel_raise_in_loop.
  - now rewrite cmd_raise_in_loop.
  - now apply pumps_report_nothing.
Qed.

(** A broken pipe ends the command pump in a supervised run; the
    supervisor shuts down and returns, and standard error shows no error. *)
Lemma pump_errors_stay_with_the_pump_witness :
  let tscript := [Ret ["O"; "K"]%byte] in
  let cscript := [Ret []; Ret ["g"; "o"; x0a]%byte] in
  let schedule :=
    [Supervisor.Main (Ret tt); Supervisor.Main (Ret tt);
     Supervisor.Stdin (Ret []); Supervisor.Stdin (Ret ["g"; "o"; x0a]%byte);
     Supervisor.Stdin (Raise broken_pipe); Supervisor.Stdin (Ret []);
     Supervisor.Main (Ret tt); Supervisor.Telemetry (Ret []);
     Supervisor.Main (Ret tt)] in
  let w := Supervisor.run 8124 8125 schedule in
  fst (TelemetryPump.run tscript) = TelemetryPump.AtRead /\
  in_loop (fst (CommandPump.run cscript)) /\
  Forall main_returns schedule /\
  Supervisor.stdin_task w
  = Some (Supervisor.mk_task (CommandPump.Done (Raised broken_pipe)) false) /\
  Supervisor.sup w = Supervisor.Done Returned /\
  Supervisor.stderr (Supervisor.trace w)
  = [ready_command 8124; ready_telemetry 8125; notice] /\
  fst (CommandPump.run (cscript ++ [Raise broken_pipe; Ret []]))
  = CommandPump.Done (Raised broken_pipe) /\
  existsb is_thrown (Supervisor.trace w) = false.
Proof.
  intros tscript cscript schedule w.
  assert (Ht : fst (TelemetryPump.run tscript) = TelemetryPump.AtRead)
    by reflexivity.
  assert (Hc : in_loop (fst (CommandPump.run cscript)))
    by (right; reflexivity).
  assert (Hm : Forall main_returns schedule) by (repeat constructor).
  split; [exact Ht|]. split; [exact Hc|]. split; [exact Hm|].
  split; [reflexivity|]. split; [reflexivity|]. split; [reflexivity|].
  destruct (pump_errors_stay_with_the_pump broken_pipe tscript cscript
              8124 8125 schedule Ht Hc Hm) as (_ & H2 & H3 & _).
  split; [exact (f_equal fst H2) | exact H3].
Defined.

(** ** The pumps inside the supervised run

    What a pump does under the supervisor is what the pump does on its own
    under the outcomes it was resumed with, a cancellation counting as the
    outcome [Raise cancelled]; the properties of the pumps' traces carry
    over to every schedule. *)

Lemma cmd_events_pump cevs tevs p q :
  cmd_events (map Supervisor.Cmd cevs ++ Supervisor.cmd_finished p) = cevs /\
  cmd_events (map Supervisor.Tel tevs ++ Supervisor.tel_finished q) = [].
Proof.
  unfold cmd_events. split; rewrite flat_map_app.
  - replace (flat_map _ (Supervisor.cmd_finished p))
      with (@nil CommandPump.event) by (destruct p; reflexivity).
    rewrite app_nil_r. induction cevs as [|e l IH]; [reflexivity|].
    cbn. now rewrite IH.
  - replace (flat_map _ (Supervisor.tel_finished q))
      with (@nil CommandPump.event) by (destruct q; reflexivity).
    rewrite app_nil_r. induction tevs as [|e l IH]; [reflexivity|].
    exact IH.
Qed.

Lemma tel_events_pump cevs tevs p q :
  tel_events (map Supervisor.Cmd cevs ++ Supervisor.cmd_finished p) = [] /\
  tel_events (map Supervisor.Tel tevs ++ Supervisor.tel_finished q) = tevs.
Proof.
  unfold tel_events. split; rewrite flat_map_app.
  - replace (flat_map _ (Supervisor.cmd_finished p))
      with (@nil TelemetryPump.event) by (destruct p; reflexivity).
    rewrite app_nil_r. induction cevs as [|e l IH]; [reflexivity|].
    exact IH.
  - replace (flat_map _ (Supervisor.tel_finished q))
      with (@nil TelemetryPump.event) by (destruct q; reflexivity).
    rewrite app_nil_r. induction tevs as [|e l IH]; [reflexivity|].
    cbn. now rewrite IH.
Qed.

Lemma cancel_cmd_at t :
  option_map (@Supervisor.at_ _) (Supervisor.cancel_cmd t)
  = option_map (@Supervisor.at_ _) t.
Proof. destruct t as [[[] c]|]; reflexivity. Qed.

Lemma cancel_tel_at t :
  option_map (@Supervisor.at_ _) (Supervisor.cancel_tel t)
  = option_map (@Supervisor.at_ _) t.
Proof. destruct t as [[[] c]|]; reflexivity. Qed.

Lemma supervised_pumps_run command_port log_port schedule :
  supervised_pumps (Supervisor.run command_port log_port schedule).
Proof.
  apply run_invariant; [repeat split; reflexivity|].
  intros w c (Hc & Ht & Hn). destruct c as [o|o|o]; cbn [Supervisor.step].
  - unfold supervised_pumps in *.
    main_cases w o Hs; try (repeat split; assumption);
      unfold cmd_events, tel_events in *; rewrite ?flat_map_app;
      cbn [flat_map map app Supervisor.print_err];
      rewrite ?app_nil_r.
    all: try solve [split; [assumption | split; [assumption|]];
                    first [ intros [H|H]; discriminate H
                          | rewrite Hs; intros [H|H]; discriminate H
                          | rewrite Hs; exact Hn ] ].
    + destruct (Hn (or_introl eq_refl)) as [E1 E2]. rewrite E1, E2 in *.
      repeat split; assumption.
    + destruct (Hn (or_intror eq_refl)) as [E1 E2]. rewrite E1, E2 in *.
      rewrite Hc, Ht. repeat split; try (exists []; reflexivity);
        destruct H; discriminate.
    + destruct (Supervisor.stdin_task w) as [[[] c]|],
               (Supervisor.log_task w) as [[[] d]|];
        cbn [Supervisor.cancel_cmd Supervisor.cancel_tel Supervisor.at_] in *;
        (split; [assumption | split; [assumption|]]);
        intros [H|H]; discriminate H.
  - destruct (step_stdin_effect w o) as [-> | (p & c & Hp & ->)];
      [exact (conj Hc (conj Ht Hn))|]. cbv zeta.
    unfold supervised_pumps in *.
    cbn [Supervisor.stdin_task Supervisor.log_task Supervisor.trace
           Supervisor.at_ Supervisor.sup].
    rewrite Hp in Hc, Hn. destruct Hc as [script Hc].
    cbn [Supervisor.at_] in Hc.
    set (st := CommandPump.resume p (Supervisor.deliver c o)).
    assert (Hce : cmd_events
                    (Supervisor.trace w ++ map Supervisor.Cmd (snd st)
                       ++ Supervisor.cmd_finished (fst st))
                  = cmd_events (Supervisor.trace w) ++ snd st).
    { unfold cmd_events at 1. rewrite flat_map_app.
      fold (cmd_events (Supervisor.trace w)).
      fold (cmd_events (map Supervisor.Cmd (snd st)
                          ++ Supervisor.cmd_finished (fst st))).
      now rewrite (proj1 (cmd_events_pump _ [] _ TelemetryPump.AtRead)). }
    assert (Hte : tel_events
                    (Supervisor.trace w ++ map Supervisor.Cmd (snd st)
                       ++ Supervisor.cmd_finished (fst st))
                  = tel_events (Supervisor.trace w)).
    { unfold tel_events at 1. rewrite flat_map_app.
      fold (tel_events (Supervisor.trace w)).
      fold (tel_events (map Supervisor.Cmd (snd st)
                          ++ Supervisor.cmd_finished (fst st))).
      rewrite (proj1 (tel_events_pump _ [] _ TelemetryPump.AtRead)).
      apply app_nil_r. }
    rewrite Hce, Hte. split; [|split; [exact Ht|]].
    + exists (script ++ [Supervisor.deliver c o]).
      rewrite cmd_run_snoc, Hc. unfold CommandPump.advance. cbn [fst snd].
      fold st. now destruct st.
    + intros H. destruct (Hn H) as [H1 _]. discriminate H1.
  - destruct (step_log_effect w o) as [-> | (p & c & Hp & ->)];
      [exact (conj Hc (conj Ht Hn))|]. cbv zeta.
    unfold supervised_pumps in *.
    cbn [Supervisor.stdin_task Supervisor.log_task Supervisor.trace
           Supervisor.at_ Supervisor.sup].
    rewrite Hp in Ht, Hn. destruct Ht as [script Ht].
    cbn [Supervisor.at_] in Ht.
    set (st := TelemetryPump.resume p (Supervisor.deliver c o)).
    assert (Hce : cmd_events
                    (Supervisor.trace w ++ map Supervisor.Tel (snd st)
                       ++ Supervisor.tel_finished (fst st))
                  = cmd_events (Supervisor.trace w)).
    { unfold cmd_events at 1. rewrite flat_map_app.
      fold (cmd_events (Supervisor.trace w)).
      fold (cmd_events (map Supervisor.Tel (snd st)
                          ++ Supervisor.tel_finished (fst st))).
      rewrite (proj2 (cmd_events_pump [] _ CommandPump.AtReadline _)).
      apply app_nil_r. }
    assert (Hte : tel_events
                    (Supervisor.trace w ++ map Supervisor.Tel (snd st)
                       ++ Supervisor.tel_finished (fst st))
                  = tel_events (Supervisor.trace w) ++ snd st).
    { unfold tel_events at 1. rewrite flat_map_app.
      fold (tel_events (Supervisor.trace w)).
      fold (tel_events (map Supervisor.Tel (snd st)
                          ++ Supervisor.tel_finished (fst st))).
      now rewrite (proj2 (tel_events_pump [] _ CommandPump.AtReadline _)). }
    rewrite Hce, Hte. split; [exact Hc | split].
    + exists (script ++ [Supervisor.deliver c o]).
      rewrite tel_run_snoc, Ht. unfold TelemetryPump.advance. cbn [fst snd].
      fold st. now destruct st.
    + intros H. destruct (Hn H) as [_ H2]. discriminate H2.
Qed.

(** In every supervised run the command connection carries the lines read
    from standard input, in order, each drained before the next is read,
    and standard output holds the decodings of the chunks read. *)
Corollary supervised_lines_forwarded command_port log_port schedule :
  let tr := cmd_events
              (Supervisor.trace
                 (Supervisor.run command_port log_port schedule)) in
  CommandPump.written tr = CommandPump.lines_read tr /\
  CommandPump.drain_between tr.
Proof.
  cbv zeta.
  destruct (supervised_pumps_run command_port log_port schedule)
    as (Hc & _ & _).
  destruct (Supervisor.stdin_task
              (Supervisor.run command_port log_port schedule)) as [t|].
  - destruct Hc as [script Hc].
    pose proof (cmd_forwarding_facts script) as H.
    rewrite Hc in H. exact H.
  - rewrite Hc. split; [reflexivity|].
    intros [|? ?] d mid post H; discriminate H.
Qed.

Corollary supervised_stdout command_port log_port schedule :
  let tr := tel_events
              (Supervisor.trace
                 (Supervisor.run command_port log_port schedule)) in
  TelemetryPump.stdout tr = List.concat (map Utf8.decode (chunks_read tr)).
Proof.
  cbv zeta.
  destruct (supervised_pumps_run command_port log_port schedule)
    as (_ & Ht & _).
  destruct (Supervisor.log_task
              (Supervisor.run command_port log_port schedule)) as [t|].
  - destruct Ht as [script Ht].
    pose proof (tel_stdout_decoded script) as H.
    rewrite Ht in H. exact H.
  - rewrite Ht. reflexivity.
Qed.

(** * Further properties of the code *)

(** ** Events that never follow another *)

Lemma never_after_app {E : Type} (x : E) (Q : E -> bool) tr evs :
  never_after x Q tr ->
  (In x tr -> existsb Q evs = false) ->
  never_after x Q evs ->
  never_after x Q (tr ++ evs).
Proof.
  intros Htr Hin Hevs pre post H. apply app_split_at in H.
  destruct H as [(post0 & -> & ->) | (pre1 & -> & ->)].
  - rewrite existsb_app, (Htr pre post0 eq_refl). cbn.
    apply Hin, in_or_app. right. now left.
  - now apply (Hevs pre1 post).
Qed.

Lemma never_after_absent {E : Type} (x : E) (Q : E -> bool) evs :
  ~ In x evs -> never_after x Q evs.
Proof.
  intros Hn pre post ->. exfalso. apply Hn, in_or_app. right. now left.
Qed.

(** ** The command pump after [close()] *)

Lemma cmd_closed_for_good script :
  let st := CommandPump.run script in
  never_after CommandPump.CallClose uses_streams (snd st) /\
  (In CommandPump.CallClose (snd st) -> closing (fst st)).
Proof.
  cbv zeta. induction script as [|o script IH] using rev_ind.
  - split.
    + apply never_after_absent. cbn. intuition discriminate.
    + cbn. intuition discriminate.
  - rewrite cmd_run_snoc. unfold CommandPump.advance.
    destruct (CommandPump.run script) as [p tr]. cbn [fst snd] in *.
    destruct IH as [Hn Hc].
    destruct p as [| | |pending|r], o as [line|e];
      cbn [CommandPump.resume CommandPump.in_try_raise CommandPump.finally_];
      try (destruct line as [|b line];
           cbn [is_empty CommandPump.finally_]);
      cbn [fst snd]; rewrite ?app_nil_r;
      (split;
       [ first
           [ assumption
           | apply never_after_app;
             [ assumption
             | intros Hin; first [ reflexivity | destruct (Hc Hin) ]
             | first [ apply never_after_absent; cbn; intuition discriminate
                     | intros pre post H; occurrences H;
                       injection H as <-; reflexivity ] ] ]
       | intros Hin;
         first
           [ exact I
           | apply Hc; assumption
           | apply in_app_or in Hin as [Hin|Hin];
             [ destruct (Hc Hin)
             | cbn in Hin; intuition discriminate ] ] ]).
Qed.

(** X1.  Once the command pump has called [close()] it uses its streams
    no more: no [readline], no [write], no [drain], no second [close()]. *)
Theorem command_pump_never_uses_closed_connection :
  forall script : list (outcome bytes),
    never_after CommandPump.CallClose uses_streams
      (snd (CommandPump.run script)).
Proof. intros script. apply cmd_closed_for_good. Qed.

(** X2.  A command pump that has finished either never got its pipe, and
    then it raises the exception of [connect_read_pipe] having read,
    written and closed nothing; or the last things it did were [close()]
    and the await of [wait_closed()]. *)
Theorem command_pump_end_shapes :
  forall (script : list (outcome bytes)) (r : result),
    fst (CommandPump.run script) = CommandPump.Done r ->
    let tr := snd (CommandPump.run script) in
    (exists e, r = Raised e /\
               tr = [CommandPump.CallConnectReadPipe; CommandPump.Thrown e])
    \/
    (exists tr0 last,
        tr = tr0 ++ [CommandPump.CallClose; CommandPump.CallWaitClosed; last]
        /\ (last = CommandPump.Closed \/
            exists e, last = CommandPump.Thrown e /\ r = Raised e)).
Proof.
  intros script r Hdone tr. subst tr.
  pose proof (cmd_closing_shape_run script) as H.
  unfold cmd_closing_shape in H. rewrite Hdone in H. exact H.
Qed.

Lemma command_pump_end_shapes_witness :
  let e := mk_exn ValueError "Pipe transport is only for pipes" in
  let script := [Raise e] in
  fst (CommandPump.run script) = CommandPump.Done (Raised e) /\
  ((exists e', Raised e = Raised e' /\
               snd (CommandPump.run script)
               = [CommandPump.CallConnectReadPipe; CommandPump.Thrown e'])
   \/
   (exists tr0 last,
       snd (CommandPump.run script)
       = tr0 ++ [CommandPump.CallClose; CommandPump.CallWaitClosed; last]
       /\ (last = CommandPump.Closed \/
           exists e', last = CommandPump.Thrown e' /\ Raised e = Raised e'))).
Proof.
  intros e script.
  assert (H : fst (CommandPump.run script) = CommandPump.Done (Raised e))
    by reflexivity.
  split; [exact H|].
  exact (command_pump_end_shapes script (Raised e) H).
Defined.

(** ** The telemetry pump, read by read *)

Lemma tel_print_follows_read script d :
  d <> [] ->
  followed_by (TelemetryPump.GotData d)
    [TelemetryPump.Print (Utf8.decode d); TelemetryPump.CallRead 1024]
    (snd (TelemetryPump.run script)).
Proof.
  intros Hd. induction script as [|o script IH] using rev_ind.
  - apply followed_by_absent. cbn. intuition discriminate.
  - rewrite tel_run_snoc. unfold TelemetryPump.advance.
    destruct (TelemetryPump.run script) as [p tr]. cbn [fst snd] in *.
    destruct p as [|r], o as [data|e]; cbn [TelemetryPump.resume];
      try (destruct data as [|b data]; cbn [is_empty]);
      cbn [snd]; (apply followed_by_app; [assumption|]);
      try (apply followed_by_absent; cbn; intuition congruence).
    intros pre post H. occurrences H.
    injection H as <- <-. unfold py_print. rewrite app_nil_r. now exists [].
Qed.

Lemma tel_silent_when_done script :
  let st := TelemetryPump.run script in
  (forall pre x post,
      snd st = pre ++ x :: post ->
      x = TelemetryPump.GotData [] \/ (exists e, x = TelemetryPump.Thrown e) ->
      post = []) /\
  (fst st = TelemetryPump.AtRead ->
   forall x, In x (snd st) ->
             x <> TelemetryPump.GotData [] /\
             forall e, x <> TelemetryPump.Thrown e).
Proof.
  cbv zeta. induction script as [|o script IH] using rev_ind.
  - split.
    + intros [|? [|? ?]] x post H Hx; try discriminate.
      injection H as <- <-. destruct Hx as [Hx|[e Hx]]; discriminate.
    + intros _ x [<-|[]]. split; [discriminate | intros e; discriminate].
  - rewrite tel_run_snoc. unfold TelemetryPump.advance.
    destruct (TelemetryPump.run script) as [p tr]. cbn [fst snd] in *.
    destruct IH as [Hend Hnone].
    destruct p as [|r], o as [data|e]; cbn [TelemetryPump.resume];
      try (destruct data as [|b data]; cbn [is_empty]);
      cbn [fst snd]; rewrite ?app_nil_r; try (split; [assumption|]);
      try discriminate.
    + (* a zero-byte read ends the pump *)
      split; [|discriminate].
      intros pre x post H Hx. apply snoc_split_at in H.
      destruct H as [(-> & _) | (post0 & -> & ->)]; [reflexivity|].
      exfalso. destruct (Hnone eq_refl x) as [H1 H2].
      { apply in_or_app. right. now left. }
      destruct Hx as [->|[e ->]]; [now apply H1 | now apply (H2 e)].
    + (* a chunk is printed and the next read begins *)
      split.
      * intros pre x post H Hx. apply app_split_at in H.
        destruct H as [(post0 & -> & ->) | (pre1 & -> & H)].
        -- exfalso. destruct (Hnone eq_refl x) as [H1 H2].
           { apply in_or_app. right. now left. }
           destruct Hx as [->|[e ->]]; [now apply H1 | now apply (H2 e)].
        -- exfalso. occurrences H; injection H as <-;
             destruct Hx as [Hx|[? Hx]]; discriminate.
      * intros _ x Hin. apply in_app_or in Hin as [Hin|Hin];
          [now apply Hnone|].
        cbn in Hin.
        destruct Hin as [<-|[<-|[<-|[]]]];
          (split; [discriminate | intros e; discriminate]).
    + (* an exception ends the pump *)
      split; [|discriminate].
      intros pre x post H Hx. apply snoc_split_at in H.
      destruct H as [(-> & _) | (post0 & -> & ->)]; [reflexivity|].
      exfalso. destruct (Hnone eq_refl x) as [H1 H2].
      { apply in_or_app. right. now left. }
      destruct Hx as [->|[e' ->]]; [now apply H1 | now apply (H2 e')].
Qed.

(** X3.  Each non-empty chunk the telemetry pump reads is printed, decoded
    and with nothing added, before the next read (of up to 1024 bytes)
    begins. *)
Theorem telemetry_prints_before_next_read :
  forall (script : list (outcome bytes)) (d : bytes),
    is_empty d = false ->
    followed_by (TelemetryPump.GotData d)
      [TelemetryPump.Print (Utf8.decode d); TelemetryPump.CallRead 1024]
      (snd (TelemetryPump.run script)).
Proof.
  intros script d Hd. apply tel_print_follows_read. now destruct d.
Qed.

Lemma telemetry_prints_before_next_read_witness :
  let d := ["O"; "K"; x0a]%byte in
  let script := [Ret d; Ret [xff]%byte; Ret []] in
  is_empty d = false /\
  followed_by (TelemetryPump.GotData d)
    [TelemetryPump.Print (Utf8.decode d); TelemetryPump.CallRead 1024]
    (snd (TelemetryPump.run script)).
Proof.
  intros d script.
  assert (Hd : is_empty d = false) by reflexivity.
  split; [exact Hd|].
  exact (telemetry_prints_before_next_read script d Hd).
Defined.

(** X4.  A zero-byte read, or an exception thrown at the read, is the last
    thing the telemetry pump ever does: it reads and prints nothing
    after it, whatever the environment offers next. *)
Theorem telemetry_stops_at_end_of_stream :
  forall (script : list (outcome bytes)) pre x post,
    snd (TelemetryPump.run script) = pre ++ x :: post ->
    x = TelemetryPump.GotData [] \/ (exists e, x = TelemetryPump.Thrown e) ->
    post = [].
Proof.
  intros script. apply (proj1 (tel_silent_when_done script)).
Qed.

Lemma telemetry_stops_at_end_of_stream_witness :
  let script := [Ret ["O"; "K"]%byte; Ret []; Ret ["l"; "a"; "t"; "e"]%byte] in
  let pre := [TelemetryPump.CallRead 1024;
              TelemetryPump.GotData ["O"; "K"]%byte;
              TelemetryPump.Print [79; 75]%N;
              TelemetryPump.CallRead 1024] in
  snd (TelemetryPump.run script) = pre ++ TelemetryPump.GotData [] :: [] /\
  (@nil TelemetryPump.event) = [].
Proof.
  intros script pre.
  assert (H : snd (TelemetryPump.run script)
              = pre ++ TelemetryPump.GotData [] :: []) by reflexivity.
  split; [exact H|].
  exact (telemetry_stops_at_end_of_stream script pre
           (TelemetryPump.GotData []) [] H (or_introl eq_refl)).
Defined.

(** ** Chunk boundaries and the codec *)

(** Decoding can be cut where no character is under way. *)
Lemma go_app (a : bytes) : forall (pending : option Utf8.lead) (b : bytes),
  pending_after pending a = None ->
  Utf8.go pending (a ++ b) = Utf8.go pending a ++ Utf8.go None b.
Proof.
  induction a as [|x a IH]; intros pending b H.
  - cbn in H. subst pending. reflexivity.
  - cbn [Utf8.go pending_after app] in *. unfold lead_of in H.
    destruct pending as [l|].
    + destruct ((Utf8.lo l <=? Byte.to_N x)%N
                && (Byte.to_N x <=? Utf8.hi l)%N).
      * destruct (Utf8.needed l) as [|[|k]]; cbn [pred] in *;
          rewrite (IH _ b H); reflexivity.
      * destruct (Utf8.classify (Byte.to_N x));
          rewrite (IH _ b H); cbn [app]; rewrite <- ?app_assoc; reflexivity.
    + destruct (Utf8.classify (Byte.to_N x));
        rewrite (IH _ b H); reflexivity.
Qed.

Lemma decode_concat (chunks : list bytes) :
  Forall complete chunks ->
  List.concat (map Utf8.decode chunks) = Utf8.decode (List.concat chunks).
Proof.
  induction 1 as [|c chunks Hc _ IH]; [reflexivity|].
  cbn [map List.concat]. rewrite IH. unfold Utf8.decode.
  symmetry. now apply go_app.
Qed.

Lemma ascii_complete (chunk : bytes) :
  Forall (fun b => (Byte.to_N b < 0x80)%N) chunk -> complete chunk.
Proof.
  unfold complete. induction 1 as [|b chunk Hb _ IH]; [reflexivity|].
  cbn [pending_after]. unfold lead_of, Utf8.classify.
  apply N.ltb_lt in Hb. now rewrite Hb.
Qed.

(** A session of non-empty chunks: standard output at its end. *)
Lemma tel_session_stdout (chunks : list bytes) (fin : outcome bytes) :
  Forall (fun c => c <> []) chunks ->
  ends_reading fin ->
  TelemetryPump.stdout
    (snd (TelemetryPump.run (map Ret chunks ++ [fin])))
  = List.concat (map Utf8.decode chunks).
Proof.
  intros Hne Hfin.
  rewrite tel_stdout_decoded. f_equal. f_equal.
  rewrite tel_run_snoc. unfold TelemetryPump.run.
  change TelemetryPump.start
    with (TelemetryPump.AtRead, [TelemetryPump.CallRead 1024]).
  rewrite tel_run_chunks by assumption.
  unfold TelemetryPump.advance. cbn [fst snd].
  assert (Hread : forall cs,
             Forall (fun c : bytes => c <> []) cs ->
             chunks_read
               (flat_map (fun c => [TelemetryPump.GotData c;
                                    TelemetryPump.Print (Utf8.decode c);
                                    TelemetryPump.CallRead 1024]) cs)
             = cs).
  { induction 1 as [|c cs Hc _ IH]; [reflexivity|].
    destruct c as [|b c]; [congruence|].
    cbn [flat_map]. unfold chunks_read in *. rewrite flat_map_app, IH.
    reflexivity. }
  unfold chunks_read in *.
  destruct fin as [data|e]; cbn in Hfin; subst;
    cbn [TelemetryPump.resume is_empty snd];
    rewrite !flat_map_app, (Hread chunks Hne); cbn;
    now rewrite app_nil_r.
Qed.

(** X5.  When no chunk ends in the middle of a character, standard output
    is the decoding of the whole byte stream received: where the reads cut
    the stream does not show. *)
Theorem telemetry_whole_stream_when_chunks_complete :
  forall (chunks : list bytes) (fin : outcome bytes),
    Forall (fun c => c <> []) chunks ->
    Forall complete chunks ->
    ends_reading fin ->
    TelemetryPump.stdout
      (snd (TelemetryPump.run (map Ret chunks ++ [fin])))
    = Utf8.decode (List.concat chunks).
Proof.
  intros chunks fin Hne Hc Hfin.
  rewrite tel_session_stdout by assumption. now apply decode_concat.
Qed.

Lemma telemetry_whole_stream_when_chunks_complete_witness :
  let chunks := [[xc3; xa9; "t"]%byte; [xe2; x82; xac]%byte] in
  Forall (fun c : bytes => c <> []) chunks /\
  Forall complete chunks /\
  ends_reading (Ret []) /\
  TelemetryPump.stdout
    (snd (TelemetryPump.run (map Ret chunks ++ [Ret []])))
  = [233; 116; 8364]%N.
Proof.
  intros chunks.
  assert (Hne : Forall (fun c : bytes => c <> []) chunks)
    by (repeat constructor; discriminate).
  assert (Hc : Forall complete chunks) by (repeat constructor).
  assert (He : ends_reading (Ret [])) by reflexivity.
  split; [exact Hne|]. split; [exact Hc|]. split; [exact He|].
  exact (eq_trans
           (telemetry_whole_stream_when_chunks_complete chunks (Ret [])
              Hne Hc He) eq_refl).
Defined.

(** X6.  Telemetry made of bytes below 0x80 reaches standard output byte
    for byte, however the stream was cut into reads. *)
Theorem telemetry_ascii_verbatim :
  forall (chunks : list bytes) (fin : outcome bytes),
    Forall (fun c => c <> []) chunks ->
    Forall (Forall (fun b => (Byte.to_N b < 0x80)%N)) chunks ->
    ends_reading fin ->
    TelemetryPump.stdout
      (snd (TelemetryPump.run (map Ret chunks ++ [fin])))
    = map Byte.to_N (List.concat chunks).
Proof.
  intros chunks fin Hne Hascii Hfin.
  rewrite tel_session_stdout by assumption.
  rewrite decode_concat.
  - apply decode_ascii. now apply Forall_concat.
  - eapply Forall_impl; [|exact Hascii]. apply ascii_complete.
Qed.

Lemma telemetry_ascii_verbatim_witness :
  let chunks := [["O"]%byte; ["K"; x0a]%byte] in
  Forall (fun c : bytes => c <> []) chunks /\
  Forall (Forall (fun b => (Byte.to_N b < 0x80)%N)) chunks /\
  ends_reading (Ret []) /\
  TelemetryPump.stdout
    (snd (TelemetryPump.run (map Ret chunks ++ [Ret []])))
  = [79; 75; 10]%N.
Proof.
  intros chunks.
  assert (Hne : Forall (fun c : bytes => c <> []) chunks)
    by (repeat constructor; discriminate).
  assert (Ha : Forall (Forall (fun b => (Byte.to_N b < 0x80)%N)) chunks)
    by (repeat constructor).
  assert (He : ends_reading (Ret [])) by reflexivity.
  split; [exact Hne|]. split; [exact Ha|]. split; [exact He|].
  exact (eq_trans (telemetry_ascii_verbatim chunks (Ret []) Hne Ha He)
           eq_refl).
Defined.

(** ** Standard error *)



(** ** The telemetry connection is refused *)

(** X8.  When the second [open_connection] raises an [Exception] (the
    telemetry port is refused, say), no pump is ever started and the
    command connection, which was established, is not closed by the
    program: it reports the error, prints the notice and ends. *)
Theorem telemetry_refused_leaves_command_open :
  forall (e : exn) (rest : list Supervisor.choice),
    isinstance e Exception = true ->
    let schedule :=
      Supervisor.Main (Ret tt) :: Supervisor.Main (Raise e) :: rest in
    let w := Supervisor.run 8124 8125 schedule in
    Supervisor.stdin_task w = None /\
    Supervisor.log_task w = None /\
    Supervisor.main schedule
    = (Some Returned,
       [Supervisor.CallOpenConnection 8124; Supervisor.Connected 8124;
        Supervisor.Stderr (ready_command 8124);
        Supervisor.CallOpenConnection 8125;
        Supervisor.Thrown e;
        Supervisor.Stderr (error_line e);
        disconnected]).
Proof.
  intros e rest He schedule w.
  assert (Hw : w = Supervisor.mk_world (Supervisor.Done Returned) None None
                     [Supervisor.CallOpenConnection 8124;
                      Supervisor.Connected 8124;
                      Supervisor.Stderr (ready_command 8124);
                      Supervisor.CallOpenConnection 8125;
                      Supervisor.Thrown e;
                      Supervisor.Stderr (error_line e);
                      disconnected]).
  { subst w schedule. unfold Supervisor.run. cbn [fold_left].
    rewrite (steps_done 8124 8125 _ rest Returned).
    - cbn. unfold Supervisor.fail, Supervisor.except_finally. rewrite He.
      unfold Supervisor.print_err, error_line, ready_command.
      cbn [Supervisor.trace app]. now rewrite !string_app_assoc.
    - cbn. unfold Supervisor.fail, Supervisor.except_finally.
      now rewrite He. }
  split; [now rewrite Hw|]. split; [now rewrite Hw|].
  unfold Supervisor.main. fold schedule w. now rewrite Hw.
Qed.

Lemma telemetry_refused_leaves_command_open_witness :
  let e := mk_exn ConnectionRefusedError "Connect call failed" in
  isinstance e Exception = true /\
  Supervisor.stderr
    (snd (Supervisor.main [Supervisor.Main (Ret tt);
                           Supervisor.Main (Raise e)]))
  = [ready_command 8124; error_line e; notice].
Proof.
  intros e.
  assert (He : isinstance e Exception = true) by reflexivity.
  split; [exact He|].
  destruct (telemetry_refused_leaves_command_open e [] He) as (_ & _ & Hm).
  exact (eq_trans (f_equal (fun r => Supervisor.stderr (snd r)) Hm) eq_refl).
Defined.

(** ** The pumps start after the connections *)

Lemma ordered_from_seen {E : Type} (P Q : E -> bool) evs :
  ordered_from P Q true evs = true.
Proof.
  induction evs as [|x rest IH]; [reflexivity|].
  cbn [ordered_from]. rewrite orb_true_r. exact IH.
Qed.

Lemma cancel_cmd_none t :
  Supervisor.cancel_cmd t <> None <-> t <> None.
Proof. destruct t as [[[] c]|]; cbn; split; congruence. Qed.

Lemma cancel_tel_none t :
  Supervisor.cancel_tel t <> None <-> t <> None.
Proof. destruct t as [[[] c]|]; cbn; split; congruence. Qed.

Lemma pumps_after_connections_run command_port log_port schedule :
  pumps_after_connections log_port
    (Supervisor.run command_port log_port schedule).
Proof.
  apply run_invariant; unfold pumps_after_connections.
  - split.
    + apply (ordered_from_sound _ _ _ _ []); [apply happens_before_nil|].
      reflexivity.
    + cbn. intros [H|H]; congruence.
  - intros w c [Hb Hseen]. destruct c as [o|o|o]; cbn [Supervisor.step].
    + main_cases w o Hs; try (split; assumption);
        (split;
         [ apply ordered_from_sound; [assumption|];
           cbn; rewrite ?N.eqb_refl; cbn;
           rewrite ?orb_true_r, ?orb_false_r; reflexivity
         | rewrite ?cancel_cmd_none, ?cancel_tel_none, existsb_app;
           intros H;
           first [ now rewrite (Hseen H)
                 | cbn; rewrite ?N.eqb_refl; cbn;
                   now rewrite ?orb_true_r
                 | destruct H; congruence ] ]).
    + destruct (step_stdin_effect w o) as [-> | (p & c & Hp & ->)];
        [now split|]. cbv zeta.
      cbn [Supervisor.trace Supervisor.stdin_task Supervisor.log_task].
      assert (Hs : existsb (is_connected log_port) (Supervisor.trace w) = true)
        by (apply Hseen; left; congruence).
      split.
      * apply ordered_from_sound; [assumption|]. rewrite Hs.
        apply ordered_from_seen.
      * intros _. now rewrite existsb_app, Hs.
    + destruct (step_log_effect w o) as [-> | (p & c & Hp & ->)];
        [now split|]. cbv zeta.
      cbn [Supervisor.trace Supervisor.stdin_task Supervisor.log_task].
      assert (Hs : existsb (is_connected log_port) (Supervisor.trace w) = true)
        by (apply Hseen; right; congruence).
      split.
      * apply ordered_from_sound; [assumption|]. rewrite Hs.
        apply ordered_from_seen.
      * intros _. now rewrite existsb_app, Hs.
Qed.

(** X9.  In every run, whatever a pump does, and the completion of its
    task, comes after the telemetry connection was established: no pump
    runs before the supervisor has both connections. *)
Theorem pumps_run_only_after_both_connections :
  forall command_port log_port schedule,
    happens_before (is_connected log_port) is_pump_event
      (Supervisor.trace (Supervisor.run command_port log_port schedule)).
Proof.
  intros command_port log_port schedule.
  apply (pumps_after_connections_run command_port log_port schedule).
Qed.

(** ** Interruption *)

Lemma base_exception_at_await (schedule : list Supervisor.choice) (e : exn) :
  isinstance e Exception = false ->
  running (Supervisor.run 8124 8125 schedule) = true ->
  Supervisor.run 8124 8125 (schedule ++ [Supervisor.Main (Raise e)])
  = Supervisor.mk_world (Supervisor.Done (Raised e))
      (Supervisor.stdin_task (Supervisor.run 8124 8125 schedule))
      (Supervisor.log_task (Supervisor.run 8124 8125 schedule))
      (Supervisor.trace (Supervisor.run 8124 8125 schedule)
         ++ [Supervisor.Thrown e; disconnected]).
Proof.
  intros He Hrun. rewrite run_snoc. cbn [Supervisor.step].
  unfold running in Hrun.
  unfold Supervisor.step_main, Supervisor.fail, Supervisor.except_finally.
  rewrite He.
  destruct (Supervisor.sup (Supervisor.run 8124 8125 schedule));
    try discriminate; reflexivity.
Qed.

Lemma keyboard_interrupt_not_exception (e : exn) :
  isinstance e KeyboardInterrupt = true -> isinstance e Exception = false.
Proof. destruct e as [[] msg]; cbn; congruence. Qed.

(** X10.  A keyboard interrupt at any await of the supervisor is not
    reported as an error: the supervisor prints the notice and lets it
    through, [main] prints its exit line after the notice and returns. *)
Theorem keyboard_interrupt_exits_quietly :
  forall (schedule : list Supervisor.choice) (e : exn),
    isinstance e KeyboardInterrupt = true ->
    running (Supervisor.run 8124 8125 schedule) = true ->
    Supervisor.main (schedule ++ [Supervisor.Main (Raise e)])
    = (Some Returned,
       Supervisor.trace (Supervisor.run 8124 8125 schedule)
         ++ [Supervisor.Thrown e; disconnected; exiting]).
Proof.
  intros schedule e Hk Hrun. unfold Supervisor.main.
  rewrite base_exception_at_await
    by (try assumption; now apply keyboard_interrupt_not_exception).
  cbn [Supervisor.sup Supervisor.trace]. rewrite Hk.
  rewrite <- app_assoc. reflexivity.
Qed.

Lemma keyboard_interrupt_exits_quietly_witness :
  let e := mk_exn KeyboardInterrupt "" in
  let schedule :=
    [Supervisor.Main (Ret tt); Supervisor.Main (Ret tt);
     Supervisor.Stdin (Ret []); Supervisor.Telemetry (Ret ["O"; "K"]%byte)] in
  isinstance e KeyboardInterrupt = true /\
  running (Supervisor.run 8124 8125 schedule) = true /\
  Supervisor.stderr
    (snd (Supervisor.main (schedule ++ [Supervisor.Main (Raise e)])))
  = [ready_command 8124; ready_telemetry 8125; notice;
     (Supervisor.nl ++ "Exiting..." ++ Supervisor.nl)%string].
Proof.
  intros e schedule.
  assert (Hk : isinstance e KeyboardInterrupt = true) by reflexivity.
  assert (Hr : running (Supervisor.run 8124 8125 schedule) = true)
    by reflexivity.
  split; [exact Hk|]. split; [exact Hr|].
  exact (eq_trans
           (f_equal (fun r => Supervisor.stderr (snd r))
              (keyboard_interrupt_exits_quietly schedule e Hk Hr))
           eq_refl).
Defined.



(** ** Forced cancellation *)

(** X12.  When the telemetry pump has finished while the command pump is
    inside its loop, the supervisor's cancellation makes the command pump
    close the command connection at its next resumption: whatever its
    await would have delivered (a line that had just arrived included) is
    dropped, nothing is written, [close()] and [wait_closed()] follow. *)
Theorem forced_cancel_closes_command_connection :
  forall command_port log_port schedule
         (p : CommandPump.pc) (c : bool) (o : outcome bytes),
    let w := Supervisor.run command_port log_port schedule in
    Supervisor.sup w = Supervisor.AtWait ->
    Supervisor.tel_done (Supervisor.log_task w) = true ->
    Supervisor.stdin_task w = Some (Supervisor.mk_task p c) ->
    in_loop p ->
    let w' := Supervisor.run command_port log_port
                (schedule ++ [Supervisor.Main (Ret tt); Supervisor.Stdin o]) in
    Supervisor.trace w'
    = Supervisor.trace w
        ++ [Supervisor.WaitReturned;
            Supervisor.CallCancel Supervisor.StdinTask;
            Supervisor.CallCancel Supervisor.LogTask;
            Supervisor.CallGather;
            Supervisor.Cmd (CommandPump.Thrown Supervisor.cancelled);
            Supervisor.Cmd CommandPump.CallClose;
            Supervisor.Cmd CommandPump.CallWaitClosed] /\
    Supervisor.stdin_task w'
    = Some (Supervisor.mk_task (CommandPump.AtWaitClosed None) false).
Proof.
  intros command_port log_port schedule p c o w Hs Hd Ht Hloop w'.
  subst w'. rewrite run_app. fold w.
  destruct w as [s st lt tr].
  cbn [Supervisor.sup Supervisor.stdin_task Supervisor.log_task
         Supervisor.trace] in *.
  subst s st. cbn [fold_left Supervisor.step].
  unfold Supervisor.step_main.
  cbn [Supervisor.sup Supervisor.stdin_task Supervisor.log_task
         Supervisor.trace].
  rewrite Hd, orb_true_r.
  destruct Hloop as [-> | ->]; cbn; rewrite <- app_assoc; split; reflexivity.
Qed.

Lemma forced_cancel_closes_command_connection_witness :
  let schedule :=
    [Supervisor.Main (Ret tt); Supervisor.Main (Ret tt);
     Supervisor.Stdin (Ret []); Supervisor.Telemetry (Ret [])] in
  let w := Supervisor.run 8124 8125 schedule in
  Supervisor.sup w = Supervisor.AtWait /\
  Supervisor.tel_done (Supervisor.log_task w) = true /\
  Supervisor.stdin_task w
  = Some (Supervisor.mk_task CommandPump.AtReadline false) /\
  in_loop CommandPump.AtReadline /\
  Supervisor.stdin_task
    (Supervisor.run 8124 8125
       (schedule ++ [Supervisor.Main (Ret tt);
                     Supervisor.Stdin (Ret ["g"; "o"; x0a]%byte)]))
  = Some (Supervisor.mk_task (CommandPump.AtWaitClosed None) false).
Proof.
  intros schedule w.
  assert (Hs : Supervisor.sup w = Supervisor.AtWait) by reflexivity.
  assert (Hd : Supervisor.tel_done (Supervisor.log_task w) = true)
    by reflexivity.
  assert (Ht : Supervisor.stdin_task w
               = Some (Supervisor.mk_task CommandPump.AtReadline false))
    by reflexivity.
  assert (Hl : in_loop CommandPump.AtReadline) by (left; reflexivity).
  split; [exact Hs|]. split; [exact Hd|]. split; [exact Ht|].
  split; [exact Hl|].
  exact (proj2 (forced_cancel_closes_command_connection 8124 8125 schedule
                  CommandPump.AtReadline false (Ret ["g"; "o"; x0a]%byte)
                  Hs Hd Ht Hl)).
Defined.

(** A command pump that is asked to cancel, or is past its loop, writes
    nothing when it is resumed, and is past its loop afterwards. *)
Lemma quiet_cmd_resume (p : CommandPump.pc) (c : bool) (o : outcome bytes) :
  c = true \/ closing p ->
  let st := CommandPump.resume p (Supervisor.deliver c o) in
  existsb is_cmd_write
    (map Supervisor.Cmd (snd st) ++ Supervisor.cmd_finished (fst st)) = false
  /\ closing (fst st).
Proof.
  intros [-> | Hc].
  - destruct p as [| | |pending|r]; cbn; split; try exact I;
      destruct o; try reflexivity; exact I.
  - destruct p as [| | |pending|r]; try contradiction;
      destruct c, o; cbn; split; try reflexivity; exact I.
Qed.

Lemma quiet_tel_resume (p : TelemetryPump.pc) (c : bool) (o : outcome bytes) :
  c = true \/ (exists r, p = TelemetryPump.Done r) ->
  let st := TelemetryPump.resume p (Supervisor.deliver c o) in
  existsb is_tel_print
    (map Supervisor.Tel (snd st) ++ Supervisor.tel_finished (fst st)) = false
  /\ exists r, fst st = TelemetryPump.Done r.
Proof.
  intros [-> | [r ->]].
  - destruct p as [|r]; cbn; split; try reflexivity; eexists; reflexivity.
  - destruct c, o; cbn; split; try reflexivity; eexists; reflexivity.
Qed.

Lemma no_cmd_write_in_tel tevs q :
  existsb is_cmd_write
    (map Supervisor.Tel tevs ++ Supervisor.tel_finished q) = false.
Proof.
  rewrite existsb_app. apply orb_false_intro.
  - induction tevs as [|e l IH]; [reflexivity | exact IH].
  - destruct q; reflexivity.
Qed.

Lemma no_tel_print_in_cmd cevs p :
  existsb is_tel_print
    (map Supervisor.Cmd cevs ++ Supervisor.cmd_finished p) = false.
Proof.
  rewrite existsb_app. apply orb_false_intro.
  - induction cevs as [|e l IH]; [reflexivity | exact IH].
  - destruct p; reflexivity.
Qed.

Lemma supervisor_event_not_in_pump x cevs tevs p q :
  of_supervisor x = true ->
  ~ In x (map Supervisor.Cmd cevs ++ Supervisor.cmd_finished p) /\
  ~ In x (map Supervisor.Tel tevs ++ Supervisor.tel_finished q).
Proof.
  intros Hx. split; intros Hin.
  - rewrite (pump_events_in x cevs [] p TelemetryPump.AtRead (or_introl Hin))
      in Hx. discriminate.
  - rewrite (pump_events_in x [] tevs CommandPump.AtReadline q (or_intror Hin))
      in Hx. discriminate.
Qed.

(** Past the supervisor's [cancel()], a pump is asked to cancel or is
    past its loop, and stays so. *)
Lemma no_write_after_cancel_inv command_port log_port schedule :
  let w := Supervisor.run command_port log_port schedule in
  never_after (Supervisor.CallCancel Supervisor.StdinTask) is_cmd_write
    (Supervisor.trace w) /\
  (In (Supervisor.CallCancel Supervisor.StdinTask) (Supervisor.trace w) ->
   past_wait w /\ stdin_quiet w).
Proof.
  cbv zeta. apply run_invariant.
  - split.
    + apply never_after_absent. cbn. intuition discriminate.
    + cbn. intuition discriminate.
  - intros w c [Hn Hq]. destruct c as [o|o|o]; cbn [Supervisor.step].
    + unfold past_wait, stdin_quiet in *.
      main_cases w o Hs; split;
        try solve [try rewrite Hs; assumption];
        try (apply never_after_app;
             [ assumption
             | intros _; reflexivity
             | first [ apply never_after_absent; cbn; intuition discriminate
                     | intros pre post H; occurrences H;
                       injection H as <-; reflexivity ] ]).
      all: intros Hin; apply in_app_or in Hin as [Hin|Hin];
        [ destruct (Hq Hin) as [[Hp|[r Hp]] Hquiet]; try discriminate Hp;
          (split; [ first [ left; reflexivity | right; eexists; reflexivity ]
                  | exact Hquiet ])
        | first [ solve [cbn in Hin; intuition discriminate]
                | split; [ left; reflexivity
                         | destruct (Supervisor.stdin_task w) as [[[] c]|];
                           cbn; auto ] ] ].
    + destruct (step_stdin_effect w o) as [-> | (p & c & Hp & ->)];
        [now split|]. cbv zeta.
      unfold past_wait, stdin_quiet in *.
      cbn [Supervisor.trace Supervisor.stdin_task Supervisor.sup
             Supervisor.at_ Supervisor.must_cancel].
      rewrite Hp in Hq. cbn [Supervisor.at_ Supervisor.must_cancel] in Hq.
      destruct (supervisor_event_not_in_pump
                  (Supervisor.CallCancel Supervisor.StdinTask)
                  (snd (CommandPump.resume p (Supervisor.deliver c o))) []
                  (fst (CommandPump.resume p (Supervisor.deliver c o)))
                  TelemetryPump.AtRead eq_refl) as [Habs _].
      split.
      * apply never_after_app; [assumption | | now apply never_after_absent].
        intros Hin. destruct (Hq Hin) as [_ Hquiet].
        apply (quiet_cmd_resume p c o Hquiet).
      * intros Hin. apply in_app_or in Hin as [Hin|Hin]; [|contradiction].
        destruct (Hq Hin) as [Hpast Hquiet]. split; [exact Hpast|].
        right. apply (quiet_cmd_resume p c o Hquiet).
    + destruct (step_log_effect w o) as [-> | (p & c & Hp & ->)];
        [now split|]. cbv zeta.
      unfold past_wait, stdin_quiet in *.
      cbn [Supervisor.trace Supervisor.stdin_task Supervisor.sup].
      destruct (supervisor_event_not_in_pump
                  (Supervisor.CallCancel Supervisor.StdinTask) []
                  (snd (TelemetryPump.resume p (Supervisor.deliver c o)))
                  CommandPump.AtReadline
                  (fst (TelemetryPump.resume p (Supervisor.deliver c o)))
                  eq_refl) as [_ Habs].
      split.
      * apply never_after_app; [assumption | | now apply never_after_absent].
        intros _. apply no_cmd_write_in_tel.
      * intros Hin. apply in_app_or in Hin as [Hin|Hin]; [|contradiction].
        now apply Hq.
Qed.

Lemma no_print_after_cancel_inv command_port log_port schedule :
  let w := Supervisor.run command_port log_port schedule in
  never_after (Supervisor.CallCancel Supervisor.LogTask) is_tel_print
    (Supervisor.trace w) /\
  (In (Supervisor.CallCancel Supervisor.LogTask) (Supervisor.trace w) ->
   past_wait w /\ log_quiet w).
Proof.
  cbv zeta. apply run_invariant.
  - split.
    + apply never_after_absent. cbn. intuition discriminate.
    + cbn. intuition discriminate.
  - intros w c [Hn Hq]. destruct c as [o|o|o]; cbn [Supervisor.step].
    + unfold past_wait, log_quiet in *.
      main_cases w o Hs; split;
        try solve [try rewrite Hs; assumption];
        try (apply never_after_app;
             [ assumption
             | intros _; reflexivity
             | first [ apply never_after_absent; cbn; intuition discriminate
                     | intros pre post H; occurrences H;
                       injection H as <-; reflexivity ] ]).
      all: intros Hin; apply in_app_or in Hin as [Hin|Hin];
        [ destruct (Hq Hin) as [[Hp|[r Hp]] Hquiet]; try discriminate Hp;
          (split; [ first [ left; reflexivity | right; eexists; reflexivity ]
                  | exact Hquiet ])
        | first [ solve [cbn in Hin; intuition discriminate]
                | split; [ left; reflexivity
                         | destruct (Supervisor.log_task w) as [[[] c]|];
                           cbn; eauto ] ] ].
    + destruct (step_stdin_effect w o) as [-> | (p & c & Hp & ->)];
        [now split|]. cbv zeta.
      unfold past_wait, log_quiet in *.
      cbn [Supervisor.trace Supervisor.log_task Supervisor.sup].
      destruct (supervisor_event_not_in_pump
                  (Supervisor.CallCancel Supervisor.LogTask)
                  (snd (CommandPump.resume p (Supervisor.deliver c o))) []
                  (fst (CommandPump.resume p (Supervisor.deliver c o)))
                  TelemetryPump.AtRead eq_refl) as [Habs _].
      split.
      * apply never_after_app; [assumption | | now apply never_after_absent].
        intros _. apply no_tel_print_in_cmd.
      * intros Hin. apply in_app_or in Hin as [Hin|Hin]; [|contradiction].
        now apply Hq.
    + destruct (step_log_effect w o) as [-> | (p & c & Hp & ->)];
        [now split|]. cbv zeta.
      unfold past_wait, log_quiet in *.
      cbn [Supervisor.trace Supervisor.log_task Supervisor.sup
             Supervisor.at_ Supervisor.must_cancel].
      rewrite Hp in Hq. cbn [Supervisor.at_ Supervisor.must_cancel] in Hq.
      destruct (supervisor_event_not_in_pump
                  (Supervisor.CallCancel Supervisor.LogTask) []
                  (snd (TelemetryPump.resume p (Supervisor.deliver c o)))
                  CommandPump.AtReadline
                  (fst (TelemetryPump.resume p (Supervisor.deliver c o)))
                  eq_refl) as [_ Habs].
      split.
      * apply never_after_app; [assumption | | now apply never_after_absent].
        intros Hin. destruct (Hq Hin) as [_ Hquiet].
        apply (quiet_tel_resume p c o Hquiet).
      * intros Hin. apply in_app_or in Hin as [Hin|Hin]; [|contradiction].
        destruct (Hq Hin) as [Hpast Hquiet]. split; [exact Hpast|].
        right. apply (quiet_tel_resume p c o Hquiet).
Qed.

(** X13.  Once the supervisor has called [cancel()] on the command pump's
    task, nothing more is written to the command connection, in any run:
    a line typed after the shutdown began is never sent. *)
Theorem nothing_sent_after_cancel :
  forall command_port log_port schedule,
    never_after (Supervisor.CallCancel Supervisor.StdinTask) is_cmd_write
      (Supervisor.trace (Supervisor.run command_port log_port schedule)).
Proof.
  intros command_port log_port schedule.
  apply (no_write_after_cancel_inv command_port log_port schedule).
Qed.

(** X14.  Once the supervisor has called [cancel()] on the telemetry
    pump's task, nothing more is printed to standard output, in any run:
    telemetry that arrives after the shutdown began is dropped. *)
Theorem nothing_printed_after_cancel :
  forall command_port log_port schedule,
    never_after (Supervisor.CallCancel Supervisor.LogTask) is_tel_print
      (Supervisor.trace (Supervisor.run command_port log_port schedule)).
Proof.
  intros command_port log_port schedule.
  apply (no_print_after_cancel_inv command_port log_port schedule).
Qed.

(** ** The connection after a normal shutdown *)

Lemma gather_means_done command_port log_port schedule :
  let w := Supervisor.run command_port log_port schedule in
  existsb is_gather_returned (Supervisor.trace w) = true ->
  (exists r, Supervisor.sup w = Supervisor.Done r) /\
  Supervisor.cmd_done (Supervisor.stdin_task w) = true /\
  Supervisor.tel_done (Supervisor.log_task w) = true.
Proof.
  cbv zeta. apply run_invariant; [discriminate|].
  intros w c IH. destruct c as [o|o|o]; cbn [Supervisor.step].
  - main_cases w o Hs; try (rewrite Hs; assumption);
      rewrite existsb_app, ?cmd_done_cancel, ?tel_done_cancel;
      cbn [existsb is_gather_returned Supervisor.print_err];
      rewrite ?orb_false_r;
      try (intros H; destruct (IH H) as [[r Hr] _]; discriminate).
    intros _. split; [eexists; reflexivity | now apply andb_prop].
  - destruct (step_stdin_effect w o) as [-> | (p & c & Hp & ->)];
      [exact IH|]. cbv zeta.
    cbn [Supervisor.trace Supervisor.stdin_task Supervisor.log_task
           Supervisor.sup].
    rewrite existsb_app.
    rewrite (proj1 (pump_events_not_supervisor is_gather_returned
                      _ [] _ TelemetryPump.AtRead
                      ltac:(intros [] H; try reflexivity; discriminate))).
    rewrite orb_false_r. intros H. destruct (IH H) as (H0 & H1 & H2).
    split; [exact H0|]. split; [|exact H2]. rewrite Hp in H1.
    destruct p; try discriminate. reflexivity.
  - destruct (step_log_effect w o) as [-> | (p & c & Hp & ->)];
      [exact IH|]. cbv zeta.
    cbn [Supervisor.trace Supervisor.stdin_task Supervisor.log_task
           Supervisor.sup].
    rewrite existsb_app.
    rewrite (proj2 (pump_events_not_supervisor is_gather_returned
                      [] _ CommandPump.AtReadline _
                      ltac:(intros [] H; try reflexivity; discriminate))).
    rewrite orb_false_r. intros H. destruct (IH H) as (H0 & H1 & H2).
    split; [exact H0|]. split; [exact H1|]. rewrite Hp in H2.
    destruct p; try discriminate. reflexivity.
Qed.

(** X15.  When [gather] has returned, the command pump has closed the
    command connection: the last things it did were [close()] and the
    await of [wait_closed()], unless it never got its pipe. *)
Theorem normal_shutdown_closes_command_connection :
  forall command_port log_port schedule,
    let tr := Supervisor.trace
                (Supervisor.run command_port log_port schedule) in
    existsb is_gather_returned tr = true ->
    (exists e, cmd_events tr
               = [CommandPump.CallConnectReadPipe; CommandPump.Thrown e]) \/
    (exists tr0 last,
        cmd_events tr
        = tr0 ++ [CommandPump.CallClose; CommandPump.CallWaitClosed; last]).
Proof.
  intros command_port log_port schedule tr Hg. subst tr.
  destruct (gather_means_done command_port log_port schedule Hg)
    as (_ & Hd & _).
  destruct (supervised_pumps_run command_port log_port schedule)
    as (Hc & _ & _).
  destruct (Supervisor.stdin_task
              (Supervisor.run command_port log_port schedule))
    as [[p c]|]; [|discriminate].
  destruct p as [| | | |r]; try discriminate.
  destruct Hc as [script Hc]. cbn [Supervisor.at_] in Hc.
  pose proof (cmd_closing_shape_run script) as Hshape.
  unfold cmd_closing_shape in Hshape. rewrite Hc in Hshape.
  cbn [fst snd] in Hshape.
  destruct Hshape as [(e & _ & He) | (tr0 & last & Htr & _)].
  - left. now exists e.
  - right. now exists tr0, last.
Qed.

Lemma normal_shutdown_closes_command_connection_witness :
  let schedule :=
    [Supervisor.Main (Ret tt); Supervisor.Main (Ret tt);
     Supervisor.Stdin (Ret []); Supervisor.Telemetry (Ret []);
     Supervisor.Main (Ret tt); Supervisor.Stdin (Ret []);
     Supervisor.Stdin (Ret []); Supervisor.Main (Ret tt)] in
  let tr := Supervisor.trace (Supervisor.run 8124 8125 schedule) in
  existsb is_gather_returned tr = true /\
  ((exists e, cmd_events tr
              = [CommandPump.CallConnectReadPipe; CommandPump.Thrown e]) \/
   (exists tr0 last,
       cmd_events tr
       = tr0 ++ [CommandPump.CallClose; CommandPump.CallWaitClosed; last])).
Proof.
  intros schedule tr.
  assert (H : existsb is_gather_returned tr = true) by reflexivity.
  split; [exact H|].
  exact (normal_shutdown_closes_command_connection 8124 8125 schedule H).
Defined.
